(** * The graph store of Mycelia (src/graph.cpp)

    A shallow embedding of the class [Graph]: the identifier counters, the
    node and edge stores, the per-node adjacency index, the version counter
    and the adapter to the external graph-algorithms library, followed by
    the properties of the store that the specification states.

    Conventions of the embedding.
    - A C++ [int] is a [Z].  The counters only ever move by [++]; signed
      overflow is undefined in C++ and is not reached below 2^31 calls, so
      no wrap-around is written out.
    - [std::set<int>] is a [gset Z]; its iteration order (ascending) is
      [ordered].  [boost::unordered_map<int,T>] and [std::map<int,T>] are
      [gmap Z T]; [operator[]] on them inserts a default-constructed value
      when the key is absent, which is what [subscript] does.
    - A member function is a computation in the monad [M]: it receives the
      object, and yields a result and the object afterwards, or nothing
      when the C++ text has undefined behaviour on that path (erasing the
      end iterator of a list).
    - The mutex is taken and released in matched pairs on every path of the
      store operations; it is left out of their embedding.  The analytics
      operations, whose paths are not all balanced, record it in a trace.
    - The display fields of a node (position, velocity, label, attributes,
      material, size) and of an edge (label, weight) are read and written
      by no operation embedded here and are left out of the records. *)

From stdpp Require Import gmap list sorting.
From Stdlib Require Import ZArith Lia.

Local Open Scope Z_scope.

(** ** Data model *)

(** [Edge(source, target)]. *)
Record Edge : Type := mkEdge {
  source : Z;
  target : Z
}.

(** A node record: the two degree counters, the component id written by
    [setComponents], and [adjacent], the map from a neighbour id to the
    list of ids of the parallel edges towards it. *)
Record Node : Type := mkNode {
  inDegree : Z;
  outDegree : Z;
  component : Z;
  adjacent : gmap Z (list Z)
}.

Record Graph : Type := mkGraph {
  version : Z;
  nodeId : Z;
  edgeId : Z;
  nodes : gset Z;
  nodeMap : gmap Z Node;
  edges : gset Z;
  edgeMap : gmap Z Edge
}.

(** Modelled from the spec: the default constructors of [Node] and [Edge]
    are declared in graph.hpp, which is not among the sources.  The spec
    requires a node's degree counters to equal its number of edges and a
    self-loop to raise both by one, so a new node starts with both at 0;
    its adjacency map is a default-constructed (empty) [std::map]. *)
Definition Node_default : Node := mkNode 0 0 0 ∅.

(** Modelled from the spec: graph.hpp's default [Edge] is not among the
    sources and the spec fixes neither endpoint; no property below reads an
    edge record that [operator[]] had to create. *)
Definition Edge_default : Edge := mkEdge 0 0.

(** Field updates, written [n.field = v] in the source. *)
Definition with_inDegree (f : Z → Z) (n : Node) : Node :=
  mkNode (f (inDegree n)) (outDegree n) (component n) (adjacent n).
Definition with_outDegree (f : Z → Z) (n : Node) : Node :=
  mkNode (inDegree n) (f (outDegree n)) (component n) (adjacent n).
Definition with_component (c : Z) (n : Node) : Node :=
  mkNode (inDegree n) (outDegree n) c (adjacent n).
Definition with_adjacent (f : gmap Z (list Z) → gmap Z (list Z)) (n : Node) : Node :=
  mkNode (inDegree n) (outDegree n) (component n) (f (adjacent n)).

Definition with_version (f : Z → Z) (g : Graph) : Graph :=
  mkGraph (f (version g)) (nodeId g) (edgeId g) (nodes g) (nodeMap g) (edges g) (edgeMap g).
Definition with_nodeId (f : Z → Z) (g : Graph) : Graph :=
  mkGraph (version g) (f (nodeId g)) (edgeId g) (nodes g) (nodeMap g) (edges g) (edgeMap g).
Definition with_edgeId (f : Z → Z) (g : Graph) : Graph :=
  mkGraph (version g) (nodeId g) (f (edgeId g)) (nodes g) (nodeMap g) (edges g) (edgeMap g).
Definition with_nodes (f : gset Z → gset Z) (g : Graph) : Graph :=
  mkGraph (version g) (nodeId g) (edgeId g) (f (nodes g)) (nodeMap g) (edges g) (edgeMap g).
Definition with_nodeMap (f : gmap Z Node → gmap Z Node) (g : Graph) : Graph :=
  mkGraph (version g) (nodeId g) (edgeId g) (nodes g) (f (nodeMap g)) (edges g) (edgeMap g).
Definition with_edges (f : gset Z → gset Z) (g : Graph) : Graph :=
  mkGraph (version g) (nodeId g) (edgeId g) (nodes g) (nodeMap g) (f (edges g)) (edgeMap g).
Definition with_edgeMap (f : gmap Z Edge → gmap Z Edge) (g : Graph) : Graph :=
  mkGraph (version g) (nodeId g) (edgeId g) (nodes g) (nodeMap g) (edges g) (f (edgeMap g)).

(** ** Containers *)

(** Iteration over a [std::set<int>]: ascending order. *)
Definition ordered (s : gset Z) : list Z := merge_sort Z.le (elements s).

(** [m[k]]: the value at [k] and the map afterwards; an absent key is
    inserted with the default value [d]. *)
Definition subscript {V : Type} (d : V) (k : Z) (m : gmap Z V) : V * gmap Z V :=
  match m !! k with
  | Some v => (v, m)
  | None => (d, <[k := d]> m)
  end.

(** [m[k] = f(m[k])]: an update in place through [operator[]]. *)
Definition subscript_update {V : Type} (d : V) (k : Z) (f : V → V) (m : gmap Z V) : gmap Z V :=
  <[k := f (default d (m !! k))]> m.

(** [l.erase(find(l.begin(), l.end(), x))]: removes the first occurrence
    of [x]; when there is none, [find] returns [end()] and erasing it is
    undefined. *)
Fixpoint erase_find (x : Z) (l : list Z) : option (list Z) :=
  match l with
  | [] => None
  | y :: l' => if decide (y = x) then Some l' else cons y <$> erase_find x l'
  end.

(** ** The monad of member functions *)

Definition M (A : Type) : Type := Graph → option (A * Graph).

Definition ret {A : Type} (a : A) : M A := λ g, Some (a, g).
Definition bind {A B : Type} (m : M A) (k : A → M B) : M B :=
  λ g, match m g with
       | Some (a, g') => k a g'
       | None => None
       end.
Definition gets {A : Type} (f : Graph → A) : M A := λ g, Some (f g, g).
Definition modify (f : Graph → Graph) : M unit := λ g, Some (tt, f g).
Definition undefined {A : Type} : M A := λ _, None.
Definition lift_option {A : Type} (o : option A) : M A :=
  λ g, match o with Some a => Some (a, g) | None => None end.

Declare Scope graph_scope.
Delimit Scope graph_scope with graph.
Notation "'let!' x ':=' m 'in' k" := (bind m (λ x, k))
  (at level 10, x name, m at level 100, k at level 200) : graph_scope.
Notation "m ;; k" := (bind m (λ _, k))
  (at level 100, k at level 200, right associativity) : graph_scope.
Local Open Scope graph_scope.

(** [foreach(int x, xs) body]. *)
Fixpoint foreach (xs : list Z) (body : Z → M unit) : M unit :=
  match xs with
  | [] => ret tt
  | x :: xs' => body x ;; foreach xs' body
  end.

(** [for(int i = start; cond(i); i++) acc = body(i, acc)].  The condition
    is evaluated on the object before every round; the recursion is on a
    bound for the number of rounds, and running past it yields nothing. *)
Fixpoint for_loop {A : Type} (rounds : nat) (cond : Z → Graph → bool)
    (body : Z → A → M A) (i : Z) (acc : A) : M A :=
  match rounds with
  | O => undefined
  | S rounds' =>
      let! continue := gets (cond i) in
      if continue : bool then
        let! acc' := body i acc in
        for_loop rounds' cond body (i + 1) acc'
      else ret acc
  end.

(** [nodeMap[n]] and [edgeMap[e]] as reads. *)
Definition nodeMap_at (n : Z) : M Node :=
  λ g, let '(nd, m) := subscript Node_default n (nodeMap g) in
       Some (nd, with_nodeMap (λ _, m) g).
Definition edgeMap_at (e : Z) : M Edge :=
  λ g, let '(ed, m) := subscript Edge_default e (edgeMap g) in
       Some (ed, with_edgeMap (λ _, m) g).

(** [nodeMap[n].field = ...]. *)
Definition nodeMap_update (n : Z) (f : Node → Node) : M unit :=
  modify (with_nodeMap (subscript_update Node_default n f)).

(** ** Construction, assignment, reset *)

(** [Graph::Graph]. *)
Definition Graph_new : Graph := mkGraph (-1) (-1) (-1) ∅ ∅ ∅ ∅.

(** [Graph::operator=], for a right-hand side [g] that is another object:
    the version and the four containers are replaced by those of [g];
    [nodeId] and [edgeId] are not among the members assigned. *)
Definition assign (g : Graph) : M unit :=
  modify (with_version (λ _, version g)) ;;
  modify (with_nodeMap (λ _, ∅)) ;;
  modify (with_nodeMap (λ m, nodeMap g ∪ m)) ;;
  modify (with_nodes (λ _, ∅)) ;;
  modify (with_nodes (λ s, nodes g ∪ s)) ;;
  modify (with_edgeMap (λ _, ∅)) ;;
  modify (with_edgeMap (λ m, edgeMap g ∪ m)) ;;
  modify (with_edges (λ _, ∅)) ;;
  modify (with_edges (λ s, edges g ∪ s)).

(** [Graph::clear]. *)
Definition clear : M unit :=
  modify (with_nodes (λ _, ∅)) ;;
  modify (with_nodeMap (λ _, ∅)) ;;
  modify (with_edges (λ _, ∅)) ;;
  modify (with_edgeMap (λ _, ∅)) ;;
  modify (with_version (λ _, -1)) ;;
  modify (with_nodeId (λ _, -1)) ;;
  modify (with_edgeId (λ _, -1)).

(** [Graph::getVersion]. *)
Definition getVersion (g : Graph) : Z := version g.

(** [Graph::update]: [version++], then the redraw request. *)
Definition update : M unit := modify (with_version Z.succ).

(** ** Edges *)

(** [Graph::isValidNode], [Graph::isValidEdge] (both [const]). *)
Definition isValidNode (node : Z) (g : Graph) : bool :=
  bool_decide (is_Some (nodeMap g !! node)).
Definition isValidEdge (edge : Z) (g : Graph) : bool :=
  bool_decide (is_Some (edgeMap g !! edge)).

(** [Graph::getNodeCount], [Graph::getEdgeCount] (both [const]). *)
Definition getNodeCount (g : Graph) : Z := Z.of_nat (size (nodes g)).
Definition getEdgeCount (g : Graph) : Z := Z.of_nat (size (edges g)).

(** [adjacent[target].push_back(edge)]. *)
Definition push_back_adjacent (target edge : Z) : Node → Node :=
  with_adjacent (subscript_update [] target (λ l, l ++ [edge])).

(** [Graph::addEdge]. *)
Definition addEdge (source target : Z) : M Z :=
  let! valid_source := gets (isValidNode source) in
  let! valid_target := gets (isValidNode target) in
  if negb valid_source || negb valid_target then
    ret (-1)
  else
    modify (with_edgeId Z.succ) ;;
    let! id := gets edgeId in
    modify (with_edges (λ s, {[id]} ∪ s)) ;;
    modify (with_edgeMap (<[id := mkEdge source target]>)) ;;
    nodeMap_update source (with_outDegree Z.succ) ;;
    nodeMap_update target (with_inDegree Z.succ) ;;
    nodeMap_update source (push_back_adjacent target id) ;;
    update ;;
    gets edgeId.

(** [Graph::clearEdges]. *)
Definition clearEdges : M unit :=
  let! live := gets (λ g, ordered (nodes g)) in
  foreach live (λ node, nodeMap_update node (with_adjacent (λ _, ∅))) ;;
  modify (with_edges (λ _, ∅)) ;;
  modify (with_edgeMap (λ _, ∅)) ;;
  update.

(** [Graph::deleteEdge]. *)
Definition deleteEdge (edge : Z) : M Z :=
  let! valid := gets (isValidEdge edge) in
  if negb valid then
    ret (-1)
  else
    let! e := edgeMap_at edge in
    let! src := nodeMap_at (source e) in
    let '(neighbors, _) := subscript [] (target e) (adjacent src) in
    let! neighbors' := lift_option (erase_find edge neighbors) in
    nodeMap_update (source e) (with_adjacent (<[target e := neighbors']>)) ;;
    modify (with_edges (λ s, s ∖ {[edge]})) ;;
    modify (with_edgeMap (delete edge)) ;;
    update ;;
    ret edge.

(** [Graph::getEdges(source, target)]: both subscripts insert. *)
Definition getEdges (source target : Z) : M (list Z) :=
  let! src := nodeMap_at source in
  let '(bucket, adj) := subscript [] target (adjacent src) in
  nodeMap_update source (with_adjacent (λ _, adj)) ;;
  ret bucket.

(** [Graph::hasEdge]: [nodeMap[source]] inserts, [find] does not; the
    second [nodeMap[source]], for [end()], finds what the first left. *)
Definition hasEdge (source target : Z) : M bool :=
  let! src := nodeMap_at source in
  ret (bool_decide (is_Some (adjacent src !! target))).

(** [Graph::isBidirectional(source, target)]. *)
Definition isBidirectional (source target : Z) : M bool :=
  let! forth := hasEdge source target in
  if forth : bool then hasEdge target source else ret false.

(** ** Nodes *)

(** [Graph::addNode()]. *)
Definition addNode : M Z :=
  modify (with_nodeId Z.succ) ;;
  let! id := gets nodeId in
  modify (with_nodes (λ s, {[id]} ∪ s)) ;;
  modify (with_nodeMap (<[id := Node_default]>)) ;;
  update ;;
  gets nodeId.

(** The first loop of [Graph::deleteNode(int)]: the ids of the edges that
    leave or enter [node], in the order of the live set. *)
Fixpoint collect_incident (node : Z) (es : list Z) (killList : list Z) : M (list Z) :=
  match es with
  | [] => ret killList
  | edge :: es' =>
      let! e := edgeMap_at edge in
      if bool_decide (source e = node) || bool_decide (target e = node)
      then collect_incident node es' (killList ++ [edge])
      else collect_incident node es' killList
  end.

(** [Graph::deleteNode(int)]. *)
Definition deleteNode (node : Z) : M Z :=
  let! valid := gets (isValidNode node) in
  if negb valid then
    ret (-1)
  else
    let! live := gets (λ g, ordered (edges g)) in
    let! killList := collect_incident node live [] in
    foreach killList (λ edge,
      modify (with_edges (λ s, s ∖ {[edge]})) ;;
      modify (with_edgeMap (delete edge))) ;;
    modify (with_nodes (λ s, s ∖ {[node]})) ;;
    modify (with_nodeMap (delete node)) ;;
    update ;;
    ret node.

(** [Graph::getDegree]. *)
Definition getDegree (node : Z) : M Z :=
  let! a := nodeMap_at node in
  let! b := nodeMap_at node in
  ret (inDegree a + outDegree b).

(** ** The adapter to the algorithms library *)

(** Modelled from the spec: the type [boost::BoostGraph] is declared in
    graph.hpp, which is not among the sources.  The spec describes it as a
    directed multigraph over a dense 0-based vertex index.  It is kept here
    as a vertex count and the edges in the order they were added; as in the
    library's vector-backed graphs, an edge at an index beyond the count
    enlarges the count to the larger index plus one.  What is proved of the
    vertex loop of [toBoost] does not depend on that growth. *)
Record BoostGraph : Type := mkBoostGraph {
  num_vertices : nat;
  edge_list : list (Z * Z)
}.

Definition BoostGraph_empty : BoostGraph := mkBoostGraph 0 [].

Definition add_vertex (b : BoostGraph) : BoostGraph :=
  mkBoostGraph (S (num_vertices b)) (edge_list b).

Definition add_edge (u v : Z) (b : BoostGraph) : BoostGraph :=
  mkBoostGraph (Nat.max (num_vertices b) (Z.to_nat (Z.max u v + 1)))
               (edge_list b ++ [(u, v)]).

(** [Graph::toBoost].  The first loop runs while [node > getNodeCount()],
    the second while [edge < getEdgeCount()]; the second reads
    [edgeMap[edge]] twice, through [operator[]].  The rounds of each loop
    are bounded by the size of the live set plus one, which is never
    exhausted ([toBoost_returns]). *)
Definition toBoost : M BoostGraph :=
  let! node_rounds := gets (λ g, S (size (nodes g))) in
  let! b := for_loop node_rounds (λ node g, node >? getNodeCount g)
              (λ _ b, ret (add_vertex b)) 0 BoostGraph_empty in
  let! edge_rounds := gets (λ g, S (size (edges g))) in
  for_loop edge_rounds (λ edge g, edge <? getEdgeCount g)
    (λ edge b,
       let! s := edgeMap_at edge in
       let! t := edgeMap_at edge in
       ret (add_edge (source s) (target t) b)) 0 b.

(** ** Analytics *)

Inductive algorithm : Type :=
  | brandes_betweenness_centrality
  | dijkstra_shortest_paths
  | prim_minimum_spanning_tree
  | connected_components.

(** What an analytics call does besides computing: it takes and releases
    the mutex and calls into the library, handing over the adapted graph and
    a result vector of some length. *)
Inductive event : Type :=
  | Lock
  | Unlock
  | Invoke (a : algorithm) (g : BoostGraph) (result_length : nat).

(** The library's algorithms and the application's selection cursor, which
    the graph only calls. *)
Class Library : Type := {
  double : Type;
  double_zero : double;
  run_brandes : BoostGraph → list double → list double;
  run_dijkstra : BoostGraph → Z → list Z → list Z;
  run_prim : BoostGraph → list Z → list Z;
  run_components : BoostGraph → list Z → list Z;
  getPreviousNode : Z
}.

Definition Traced (A : Type) : Type := list event * option (A * Graph).

Section Analytics.
Context `{Library}.

(** [vector<T> v(getNodeCount())]. *)
Definition vector_of {T : Type} (x : T) (g : Graph) : list T :=
  replicate (Z.to_nat (getNodeCount g)) x.

(** [&v[0]]: [operator[]] at index 0.  On a vector of length 0 the index is
    out of bounds and the access is undefined, as it is for [c[node]] in
    [write_component]. *)
Definition first_element {T : Type} (v : list T) : option T := v !! 0%nat.

(** [Graph::getBetweennessCentrality]. *)
Definition getBetweennessCentrality (this : Graph) : Traced (list double) :=
  match toBoost this with
  | None => ([Lock], None)
  | Some (g, this) =>
      let bc := vector_of double_zero this in
      if getNodeCount this =? 0 then ([Lock], Some (bc, this))
      else ([Lock; Invoke brandes_betweenness_centrality g (length bc); Unlock],
            Some (run_brandes g bc, this))
  end.

(** [Graph::getShortestPath]. *)
Definition getShortestPath (this : Graph) : Traced (list Z) :=
  match toBoost this with
  | None => ([Lock], None)
  | Some (g, this) =>
      let p := vector_of 0 this in
      let d := vector_of 0 this in
      if getNodeCount this =? 0 then ([Lock], Some (p, this))
      else
        match first_element p, first_element d with
        | Some _, Some _ =>
            ([Lock; Invoke dijkstra_shortest_paths g (length p); Unlock],
             Some (run_dijkstra g getPreviousNode p, this))
        | _, _ => ([Lock], None)
        end
  end.

(** [Graph::getSpanningTree]. *)
Definition getSpanningTree (this : Graph) : Traced (list Z) :=
  match toBoost this with
  | None => ([Lock], None)
  | Some (g, this) =>
      let p := vector_of 0 this in
      if getNodeCount this =? 0 then ([Lock], Some (p, this))
      else
        match first_element p with
        | Some _ =>
            ([Lock; Invoke prim_minimum_spanning_tree g (length p); Unlock],
             Some (run_prim g p, this))
        | None => ([Lock], None)
        end
  end.

(** [nodeMap[node].component = c[node]]; an index outside [c] is
    undefined. *)
Definition write_component (c : list Z) (node : Z) : M unit :=
  if node <? 0 then undefined
  else
    let! v := lift_option (c !! Z.to_nat node) in
    nodeMap_update node (with_component v).

(** [Graph::setComponents].  Nothing tests the node count before
    [&c[0]] is taken for the call of the library. *)
Definition setComponents (this : Graph) : Traced unit :=
  match toBoost this with
  | None => ([Lock], None)
  | Some (g, this) =>
      let c := vector_of 0 this in
      match first_element c with
      | None => ([Lock], None)
      | Some _ =>
          let invoked := [Lock; Invoke connected_components g (length c)] in
          let c := run_components g c in
          match foreach (ordered (nodes this)) (write_component c) this with
          | None => (invoked, None)
          | Some (_, this) => (invoked ++ [Unlock], Some (tt, this))
          end
      end
  end.

End Analytics.

(** ** Observations used by the properties *)

(** [k] calls of [addNode()] in a row, and the ids they return. *)
Fixpoint addNodes (k : nat) : M (list Z) :=
  match k with
  | O => ret []
  | S k' =>
      let! id := addNode in
      let! ids := addNodes k' in
      ret (id :: ids)
  end.

(** The live edges that enter, leave, or touch a node. *)
Definition enters (n : Z) (g : Graph) (e : Z) : bool :=
  bool_decide (target <$> edgeMap g !! e = Some n).
Definition leaves (n : Z) (g : Graph) (e : Z) : bool :=
  bool_decide (source <$> edgeMap g !! e = Some n).
Definition incident (n : Z) (g : Graph) (e : Z) : bool :=
  leaves n g e || enters n g e.
Definition connects (s t : Z) (g : Graph) (e : Z) : bool :=
  leaves s g e && enters t g e.

Definition count_edges (p : Z → bool) (g : Graph) : Z :=
  Z.of_nat (length (filter (λ e, Is_true (p e)) (ordered (edges g)))).

(** The degree counters of a live node agree with the edge store. *)
Definition degrees_match (g : Graph) (n : Z) : bool :=
  match nodeMap g !! n with
  | Some nd =>
      bool_decide (inDegree nd = count_edges (enters n g) g) &&
      bool_decide (outDegree nd = count_edges (leaves n g) g)
  | None => true
  end.

Definition degree_invariant (g : Graph) : bool :=
  forallb (degrees_match g) (ordered (nodes g)).

(** The adjacency bucket of [s] for [t], read without touching the maps. *)
Definition bucket (s t : Z) (g : Graph) : option (list Z) :=
  nodeMap g !! s ≫= λ nd, adjacent nd !! t.

(** The state after a computation, when it has one. *)
Definition exec {A : Type} (m : M A) (g : Graph) : option Graph := snd <$> m g.
Definition eval {A : Type} (m : M A) (g : Graph) : option A := fst <$> m g.

(** The state a computation leaves (the initial one if it leaves none). *)
Definition after {A : Type} (m : M A) (g : Graph) : Graph :=
  default g (exec m g).

(** Two nodes, 0 and 1, and one edge, 0, from node 0 to node 1. *)
Definition one_edge : M Z := addNode ;; addNode ;; addEdge 0 1.

(** ** Well-formed stores *)

(** What the store operations keep true of the object: the live sets are
    the key sets of the two maps, no live node id is ahead of the node
    counter, the endpoints of a live edge are live, and a live edge is
    listed in the bucket of its source for its target. *)
Record well_formed (g : Graph) : Prop := mk_well_formed {
  wf_nodes : dom (nodeMap g) = nodes g;
  wf_edges : dom (edgeMap g) = edges g;
  wf_fresh : ∀ n, n ∈ nodes g → n ≤ nodeId g;
  wf_endpoints : ∀ e ed, edgeMap g !! e = Some ed →
    source ed ∈ nodes g ∧ target ed ∈ nodes g;
  wf_indexed : ∀ e ed, edgeMap g !! e = Some ed →
    ∃ l, bucket (source ed) (target ed) g = Some l ∧ e ∈ l
}.

(** One call of a mutator of the store. *)
Inductive step : Graph → Graph → Prop :=
  | step_addNode g id g' : addNode g = Some (id, g') → step g g'
  | step_addEdge s t g id g' : addEdge s t g = Some (id, g') → step g g'
  | step_deleteEdge e g id g' : deleteEdge e g = Some (id, g') → step g g'
  | step_deleteNode n g id g' : deleteNode n g = Some (id, g') → step g g'
  | step_clearEdges g g' : clearEdges g = Some (tt, g') → step g g'
  | step_clear g g' : clear g = Some (tt, g') → step g g'.

(** The states a graph goes through from its construction. *)
Inductive reachable : Graph → Prop :=
  | reachable_new : reachable Graph_new
  | reachable_step g g' : reachable g → step g g' → reachable g'.

(** ** Further member functions *)

(** [Graph::getEdge]: a reference to [edgeMap[edge]]; its endpoints are
    what the embedding keeps of the record. *)
Definition getEdge (edge : Z) : M Edge := edgeMap_at edge.

(** [Graph::isBidirectional(int edge)]. *)
Definition isBidirectional_edge (edge : Z) : M bool :=
  let! s := edgeMap_at edge in
  let! t := edgeMap_at edge in
  isBidirectional (source s) (target t).

(** [Graph::getComponent]. *)
Definition getComponent (node : Z) : M Z :=
  let! nd := nodeMap_at node in
  ret (component nd).

(** [Graph::deleteNode()]: [deleteNode( *nodes.begin() )].  On an empty set
    [begin()] is [end()], and dereferencing it is undefined. *)
Definition deleteNode_first : M Z :=
  let! live := gets (λ g, ordered (nodes g)) in
  match live with
  | [] => undefined
  | first :: _ => deleteNode first
  end.

(** ** Bounds on the identifiers *)

(** The live ids lie between 0 and the counter that issued them, and no
    counter is below its initial value. *)
Record ids_bounded (g : Graph) : Prop := mk_ids_bounded {
  ib_nodes : ∀ n, n ∈ nodes g → 0 ≤ n ≤ nodeId g;
  ib_edges : ∀ e, e ∈ edges g → 0 ≤ e ≤ edgeId g;
  ib_nodeId : -1 ≤ nodeId g;
  ib_edgeId : -1 ≤ edgeId g;
  ib_version : -1 ≤ version g
}.

(** The states of a graph to which nodes and edges have only been added. *)
Inductive grown : Graph → Prop :=
  | grown_new : grown Graph_new
  | grown_addNode g id g' : grown g → addNode g = Some (id, g') → grown g'
  | grown_addEdge s t g e g' :
      grown g → addEdge s t g = Some (e, g') → grown g'.

(** A library whose algorithms hand back the result vector as they got it;
    it serves to run the analytics on concrete graphs. *)
Definition Library_inert : Library := {|
  double := unit;
  double_zero := tt;
  run_brandes := λ _ bc, bc;
  run_dijkstra := λ _ _ p, p;
  run_prim := λ _ p, p;
  run_components := λ _ c, c;
  getPreviousNode := 0
|}.

(** * Properties *)

(** ** Running a computation *)

Lemma bind_ret {A B : Type} (a : A) (k : A → M B) (g : Graph) :
  bind (ret a) k g = k a g.
Proof. reflexivity. Qed.

Lemma bind_gets {A B : Type} (f : Graph → A) (k : A → M B) (g : Graph) :
  bind (gets f) k g = k (f g) g.
Proof. reflexivity. Qed.

Lemma bind_modify {B : Type} (f : Graph → Graph) (k : unit → M B) (g : Graph) :
  bind (modify f) k g = k tt (f g).
Proof. reflexivity. Qed.

Lemma bind_assoc {A B C : Type} (m : M A) (f : A → M B) (k : B → M C)
    (g : Graph) :
  bind (bind m f) k g = bind m (λ x, bind (f x) k) g.
Proof. unfold bind. by destruct (m g) as [[a g']|]. Qed.

Lemma bind_Some {A B : Type} (m : M A) (k : A → M B) (g g' : Graph) (a : A) :
  m g = Some (a, g') → bind m k g = k a g'.
Proof. unfold bind. by intros ->. Qed.

(** Computes the field updates of a graph, by value, and restores the
    projections of the graphs that are variables. *)
Ltac refold_projections :=
  repeat match goal with
  | g : Graph |- _ =>
      progress (fold (version g) (nodeId g) (edgeId g) (nodes g)
                     (nodeMap g) (edges g) (edgeMap g))
  end.

Ltac node_fields :=
  unfold with_inDegree, with_outDegree, with_component, with_adjacent;
  cbn [inDegree outDegree component adjacent source target].

Ltac fields :=
  cbv [with_version with_nodeId with_edgeId with_nodes with_nodeMap
       with_edges with_edgeMap
       version nodeId edgeId nodes nodeMap edges edgeMap];
  refold_projections; node_fields.

(** Runs the straight-line part of a computation applied to a state. *)
Ltac steps :=
  repeat first
    [ rewrite bind_assoc
    | rewrite bind_ret | rewrite bind_gets | rewrite bind_modify
    | progress unfold update, nodeMap_update
    | progress cbn beta iota ].

(** ** Construction and reset *)

Lemma clear_is_new (g : Graph) : clear g = Some (tt, Graph_new).
Proof. reflexivity. Qed.

Lemma addNode_eq (g : Graph) :
  addNode g = Some (nodeId g + 1,
    mkGraph (version g + 1) (nodeId g + 1) (edgeId g)
            ({[nodeId g + 1]} ∪ nodes g)
            (<[nodeId g + 1 := Node_default]> (nodeMap g))
            (edges g) (edgeMap g)).
Proof. reflexivity. Qed.

Lemma addNodes_ids (k : nat) : ∀ g : Graph,
  eval (addNodes k) g = Some (seqZ (nodeId g + 1) (Z.of_nat k)).
Proof.
  induction k as [|k IH]; intros g; [reflexivity|].
  specialize (IH (mkGraph (version g + 1) (nodeId g + 1) (edgeId g)
            ({[nodeId g + 1]} ∪ nodes g)
            (<[nodeId g + 1 := Node_default]> (nodeMap g))
            (edges g) (edgeMap g))).
  unfold eval in *. cbn [addNodes]. unfold bind at 1. rewrite addNode_eq.
  unfold bind at 1.
  destruct (addNodes k _) as [[ids g']|] eqn:E; [|discriminate].
  cbn [fmap option_fmap option_map fst] in IH |- *. injection IH as ->.
  unfold ret. cbn [fst].
  rewrite Nat2Z.inj_succ.
  rewrite (seqZ_cons (nodeId g + 1) (Z.succ (Z.of_nat k))) by lia.
  cbn. do 3 f_equal. lia.
Qed.

(** C6.  After [clear()] on any graph, [getNodeCount()] and
    [getEdgeCount()] are 0, [getVersion()] is the initial sentinel (the
    version of a newly constructed graph, -1), and any number of
    subsequent [addNode()] calls return the same ids as on a newly
    constructed graph: 0, 1, 2, ... *)
Theorem clear_resets (g : Graph) :
  ∃ g', clear g = Some (tt, g') ∧
    getNodeCount g' = 0 ∧
    getEdgeCount g' = 0 ∧
    getVersion g' = getVersion Graph_new ∧
    getVersion g' = -1 ∧
    ∀ k : nat,
      eval (addNodes k) g' = eval (addNodes k) Graph_new ∧
      eval (addNodes k) g' = Some (seqZ 0 (Z.of_nat k)).
Proof.
  exists Graph_new. rewrite clear_is_new.
  repeat split; try reflexivity.
  apply (addNodes_ids k Graph_new).
Qed.

(** ** Edge insertion on dead endpoints *)

Lemma addEdge_dead_endpoint (s t : Z) (g : Graph) :
  isValidNode s g = false ∨ isValidNode t g = false →
  addEdge s t g = Some (-1, g).
Proof.
  intros Hdead. unfold addEdge. steps.
  destruct Hdead as [-> | ->]; [reflexivity|].
  rewrite orb_true_r. reflexivity.
Qed.

(** C7 (the code departs from it).  With nodes 0 and 1 and edge 0, the id
    5 is not a live node, and [addEdge(5, 1)] returns -1 and leaves the
    object as it was, as the claim says.  After [hasEdge(5, 1)], which
    answers false, 5 is still not in the live node set and the node count
    is still 2, but [nodeMap[5]] has left a record and [isValidNode(5)] is
    true: [addEdge(5, 1)] now returns the new edge id 1, the edge count
    goes from 1 to 2, the edge counter and the version move, and the edge
    store holds an edge whose source is not a live node. *)
Theorem addEdge_after_hasEdge_on_dead_node :
  let live_5 := gets (λ g, bool_decide (5 ∈ nodes g)) in
  let probed := one_edge ;; hasEdge 5 1 in
  eval (one_edge ;; live_5) Graph_new = Some false ∧
  eval (one_edge ;; addEdge 5 1) Graph_new = Some (-1) ∧
  exec (one_edge ;; addEdge 5 1) Graph_new = exec one_edge Graph_new ∧
  eval probed Graph_new = Some false ∧
  eval (probed ;; live_5) Graph_new = Some false ∧
  eval (probed ;; gets getNodeCount) Graph_new = Some 2 ∧
  eval (probed ;; gets (isValidNode 5)) Graph_new = Some true ∧
  eval (probed ;; gets getEdgeCount) Graph_new = Some 1 ∧
  eval (probed ;; addEdge 5 1) Graph_new = Some 1 ∧
  eval (probed ;; addEdge 5 1 ;; live_5) Graph_new = Some false ∧
  eval (probed ;; addEdge 5 1 ;; gets getEdgeCount) Graph_new = Some 2 ∧
  eval (probed ;; addEdge 5 1 ;; gets (λ g, edgeMap g !! 1)) Graph_new
    = Some (Some (mkEdge 5 1)) ∧
  eval (probed ;; gets edgeId) Graph_new = Some 0 ∧
  eval (probed ;; addEdge 5 1 ;; gets edgeId) Graph_new = Some 1 ∧
  eval (probed ;; gets getVersion) Graph_new = Some 2 ∧
  eval (probed ;; addEdge 5 1 ;; gets getVersion) Graph_new = Some 3.
Proof. intros live_5 probed. repeat apply conj; vm_compute; reflexivity. Qed.

(** ** Reads that write *)

Lemma with_nodeMap_same (g : Graph) : with_nodeMap (λ _, nodeMap g) g = g.
Proof. destruct g; reflexivity. Qed.

Lemma with_edgeMap_same (g : Graph) : with_edgeMap (λ _, edgeMap g) g = g.
Proof. destruct g; reflexivity. Qed.

Lemma nodeMap_at_live (n : Z) (nd : Node) (g : Graph) :
  nodeMap g !! n = Some nd → nodeMap_at n g = Some (nd, g).
Proof.
  intros Hn. unfold nodeMap_at, subscript. rewrite Hn.
  by rewrite with_nodeMap_same.
Qed.

Lemma edgeMap_at_live (e : Z) (ed : Edge) (g : Graph) :
  edgeMap g !! e = Some ed → edgeMap_at e g = Some (ed, g).
Proof.
  intros He. unfold edgeMap_at, subscript. rewrite He.
  by rewrite with_edgeMap_same.
Qed.

Lemma isValidNode_true (n : Z) (g : Graph) :
  isValidNode n g = true ↔ is_Some (nodeMap g !! n).
Proof. unfold isValidNode. by rewrite bool_decide_eq_true. Qed.

Lemma isValidEdge_true (e : Z) (g : Graph) :
  isValidEdge e g = true ↔ is_Some (edgeMap g !! e).
Proof. unfold isValidEdge. by rewrite bool_decide_eq_true. Qed.

Lemma hasEdge_live (s t : Z) (nd : Node) (g : Graph) :
  nodeMap g !! s = Some nd →
  hasEdge s t g = Some (bool_decide (is_Some (adjacent nd !! t)), g).
Proof.
  intros Hs. unfold hasEdge, bind. by rewrite (nodeMap_at_live s nd).
Qed.

(** C9.  [getEdges] is not a pure read.  For live nodes [s] and [t] with
    no live edge from [s] to [t], where the record of [s] has no bucket for
    [t], [hasEdge(s, t)] is false; [getEdges(s, t)] returns the empty list
    and leaves an empty bucket for [t] in the record of [s]; afterwards
    [hasEdge(s, t)] is true, although the call changed nothing in the edge
    store, the live sets, the counters or the version, and there is still
    no live edge from [s] to [t]. *)
Theorem getEdges_inserts_bucket (s t : Z) (g : Graph) :
  isValidNode s g = true →
  isValidNode t g = true →
  count_edges (connects s t g) g = 0 →
  bucket s t g = None →
  hasEdge s t g = Some (false, g) ∧
  ∃ g', getEdges s t g = Some ([], g') ∧
        bucket s t g' = Some [] ∧
        hasEdge s t g' = Some (true, g') ∧
        count_edges (connects s t g') g' = 0 ∧
        edges g' = edges g ∧ edgeMap g' = edgeMap g ∧
        nodes g' = nodes g ∧ dom (nodeMap g') = dom (nodeMap g) ∧
        edgeId g' = edgeId g ∧ nodeId g' = nodeId g ∧
        version g' = version g.
Proof.
  intros Hvalid _ Hnone Hb.
  apply isValidNode_true in Hvalid as [nd Hs].
  unfold bucket in Hb. rewrite Hs in Hb. cbn in Hb.
  split.
  { rewrite (hasEdge_live s t nd) by done. rewrite Hb.
    by rewrite bool_decide_eq_false_2 by (by intros [? ?]). }
  eexists. split.
  { unfold getEdges, bind. rewrite (nodeMap_at_live s nd) by done.
    unfold subscript. rewrite Hb. reflexivity. }
  cbn. repeat split.
  - unfold bucket; cbn. unfold subscript_update.
    rewrite lookup_insert_eq. cbn. by rewrite lookup_insert_eq.
  - erewrite hasEdge_live.
    2:{ cbn. unfold subscript_update. apply lookup_insert_eq. }
    cbn. rewrite lookup_insert_eq.
    by rewrite bool_decide_eq_true_2 by eauto.
  - exact Hnone.
  - unfold subscript_update. rewrite dom_insert_L.
    apply subseteq_union_1_L, singleton_subseteq_l.
    by apply elem_of_dom_2 in Hs.
Qed.

Lemma getEdges_inserts_bucket_witness :
  ∃ g, eval (addNode ;; addNode) Graph_new = Some 1 ∧
       exec (addNode ;; addNode) Graph_new = Some g ∧
       hasEdge 0 1 g = Some (false, g) ∧
       ∃ g', getEdges 0 1 g = Some ([], g') ∧
             hasEdge 0 1 g' = Some (true, g') ∧
             getEdgeCount g' = 0.
Proof.
  eexists. split; [reflexivity|]. split; [reflexivity|].
  destruct (getEdges_inserts_bucket 0 1
    (mkGraph 1 1 (-1) ({[1]} ∪ ({[0]} ∪ ∅))
       (<[1 := Node_default]> (<[0 := Node_default]> ∅)) ∅ ∅))
    as (Hno & g' & Hget & _ & Hhas & _ & Hedges & _);
    [reflexivity | reflexivity | reflexivity | reflexivity |].
  split; [exact Hno|].
  exists g'. split; [exact Hget|]. split; [exact Hhas|].
  unfold getEdgeCount. rewrite Hedges. reflexivity.
Defined.

(** ** Assignment *)

Lemma assign_eq (this g : Graph) :
  assign g this = Some (tt,
    mkGraph (version g) (nodeId this) (edgeId this)
            (nodes g) (nodeMap g) (edges g) (edgeMap g)).
Proof.
  unfold assign. steps. unfold modify. fields.
  by rewrite !(right_id_L ∅ (∪)).
Qed.

(** C10.  [operator=] takes the node store, the edge store and the version
    from the right-hand side and leaves the two id counters of the
    destination as they were.  When the id after the destination's node
    counter is live in the source, the next [addNode()] on the destination
    returns that id, which was already live in the copied node store: the
    call does not raise the node count, and the record that id had is
    replaced by a new node's. *)
Theorem assign_keeps_counters (this g : Graph) :
  nodeId this + 1 ∈ nodes g →
  ∃ this', assign g this = Some (tt, this') ∧
    nodes this' = nodes g ∧ nodeMap this' = nodeMap g ∧
    edges this' = edges g ∧ edgeMap this' = edgeMap g ∧
    version this' = version g ∧
    nodeId this' = nodeId this ∧ edgeId this' = edgeId this ∧
    ∃ id this'', addNode this' = Some (id, this'') ∧
      id ∈ nodes this' ∧
      getNodeCount this'' = getNodeCount this' ∧
      nodeMap this'' !! id = Some Node_default.
Proof.
  intros Hlive. eexists. split; [apply assign_eq|].
  rewrite addNode_eq. cbn.
  do 7 (split; [reflexivity|]).
  eexists _, _. split; [reflexivity|]. cbn.
  repeat split.
  - done.
  - unfold getNodeCount; cbn. do 2 f_equal.
    by apply subseteq_union_1_L, singleton_subseteq_l.
  - apply lookup_insert_eq.
Qed.

Lemma assign_keeps_counters_witness :
  ∃ g this', exec addNode Graph_new = Some g ∧
    assign g Graph_new = Some (tt, this') ∧
    nodes this' = {[0]} ∧ nodeId this' = -1 ∧
    ∃ this'', addNode this' = Some (0, this'') ∧ 0 ∈ nodes this'.
Proof.
  destruct (assign_keeps_counters Graph_new
    (mkGraph 0 0 (-1) ({[0]} ∪ ∅) (<[0 := Node_default]> ∅) ∅ ∅))
    as (this' & Hassign & Hnodes & _ & _ & _ & _ & Hid & _ &
        id & this'' & Hadd & Hin & _).
  { apply elem_of_union_l, elem_of_singleton. reflexivity. }
  eexists _, this'. split; [reflexivity|]. split; [exact Hassign|].
  split; [rewrite Hnodes; reflexivity|]. split; [exact Hid|].
  rewrite addNode_eq, Hid in Hadd. injection Hadd as <- <-.
  eexists. split; [|exact Hin].
  rewrite addNode_eq, Hid. reflexivity.
Defined.

(** ** The adapter *)

(** The loop that should add the vertices never runs: its condition
    [node > getNodeCount()] is false at [node = 0] for every graph. *)
Lemma toBoost_no_edges (g : Graph) :
  edges g = ∅ → toBoost g = Some (BoostGraph_empty, g).
Proof.
  intros Hnone. unfold toBoost. steps. cbn [for_loop]. steps.
  assert ((0 >? getNodeCount g) = false) as ->.
  { rewrite Z.gtb_ltb. apply Z.ltb_ge. unfold getNodeCount. lia. }
  steps. cbn [for_loop]. steps.
  unfold getEdgeCount. rewrite Hnone. reflexivity.
Qed.

(** C1 (the code departs from it).  The graph made by one [addNode()] has
    the live node ids 0..getNodeCount()-1 = {0} and no edge, yet
    [toBoost()] returns an external graph with no vertex: the loop over
    the node indices runs while [node > getNodeCount()], so it adds
    nothing. *)
Theorem toBoost_one_node :
  eval addNode Graph_new = Some 0 ∧
  eval (addNode ;; gets nodes) Graph_new = Some {[0]} ∧
  eval (addNode ;; gets getNodeCount) Graph_new = Some 1 ∧
  eval (addNode ;; gets getEdgeCount) Graph_new = Some 0 ∧
  eval (addNode ;; toBoost) Graph_new = Some BoostGraph_empty ∧
  num_vertices <$> eval (addNode ;; toBoost) Graph_new = Some 0%nat.
Proof. repeat split; vm_compute; reflexivity. Qed.

(** With live node ids 0 and 1 and the one live edge 1 (from 1 to 0, edge 0
    having been deleted), the loop over [0..getEdgeCount()-1] reads
    [edgeMap[0]], which [operator[]] creates, instead of edge 1. *)
Example toBoost_edge_hole :
  eval (one_edge ;; addEdge 1 0 ;; deleteEdge 0 ;; toBoost) Graph_new
  = Some (mkBoostGraph 1 [(source Edge_default, target Edge_default)]).
Proof. vm_compute. reflexivity. Qed.

(** ** Edge presence *)

(** C2 (the code departs from it).  After [addNode()] twice and
    [addEdge(0, 1)], which returns edge 0, [hasEdge(0, 1)] is true.  After
    [deleteEdge(0)], which deletes the only edge from 0 to 1, the edge
    count is 0 and [getEdges(0, 1)] is empty, but [hasEdge(0, 1)] is
    still true: the emptied bucket stays in the adjacency index, and
    [hasEdge] only looks for the bucket. *)
Theorem hasEdge_after_deleteEdge :
  eval one_edge Graph_new = Some 0 ∧
  eval (one_edge ;; hasEdge 0 1) Graph_new = Some true ∧
  eval (one_edge ;; deleteEdge 0) Graph_new = Some 0 ∧
  eval (one_edge ;; deleteEdge 0 ;; gets getEdgeCount) Graph_new = Some 0 ∧
  eval (one_edge ;; deleteEdge 0 ;; gets (isValidEdge 0)) Graph_new
    = Some false ∧
  eval (one_edge ;; deleteEdge 0 ;; getEdges 0 1) Graph_new = Some [] ∧
  eval (one_edge ;; deleteEdge 0 ;; hasEdge 0 1) Graph_new = Some true.
Proof. repeat split; vm_compute; reflexivity. Qed.

(** ** Degree counters *)

(** C3 (the code departs from it).  With nodes 0 and 1 and one edge from 0
    to 1 the degree counters agree with the edge store.  After
    [deleteEdge] of that edge, after [deleteNode(1)], and after
    [clearEdges()], node 0 has no live edge left but its out-degree
    counter is still 1: none of the three decrements a counter. *)
Theorem degree_invariant_not_preserved :
  let out_degree_0 (g : Graph) := outDegree <$> nodeMap g !! 0 in
  let edges_from_0 (g : Graph) := count_edges (leaves 0 g) g in
  eval (one_edge ;; gets degree_invariant) Graph_new = Some true ∧
  eval (one_edge ;; deleteEdge 0 ;; gets degree_invariant) Graph_new
    = Some false ∧
  eval (one_edge ;; deleteEdge 0 ;; gets out_degree_0) Graph_new
    = Some (Some 1) ∧
  eval (one_edge ;; deleteEdge 0 ;; gets edges_from_0) Graph_new = Some 0 ∧
  eval (one_edge ;; deleteNode 1 ;; gets degree_invariant) Graph_new
    = Some false ∧
  eval (one_edge ;; deleteNode 1 ;; gets out_degree_0) Graph_new
    = Some (Some 1) ∧
  eval (one_edge ;; deleteNode 1 ;; gets edges_from_0) Graph_new = Some 0 ∧
  eval (one_edge ;; clearEdges ;; gets degree_invariant) Graph_new
    = Some false ∧
  eval (one_edge ;; clearEdges ;; gets out_degree_0) Graph_new
    = Some (Some 1) ∧
  eval (one_edge ;; clearEdges ;; gets edges_from_0) Graph_new = Some 0.
Proof. repeat split; vm_compute; reflexivity. Qed.

(** ** Analytics on the empty graph *)

(** C4 (the code departs from it).  On a newly constructed graph
    [getBetweennessCentrality], [getShortestPath] and [getSpanningTree]
    return an empty vector before calling the library (and before
    releasing the mutex they took).  [setComponents] has no such test: on
    its way to the library it takes [&c[0]] of a vector of length zero,
    which is undefined, so it has no result, and the mutex is still held. *)
Theorem analytics_on_empty_graph `{Library} :
  getBetweennessCentrality Graph_new = ([Lock], Some ([], Graph_new)) ∧
  getShortestPath Graph_new = ([Lock], Some ([], Graph_new)) ∧
  getSpanningTree Graph_new = ([Lock], Some ([], Graph_new)) ∧
  setComponents Graph_new = ([Lock], None) ∧
  getNodeCount Graph_new = 0.
Proof. repeat split. Qed.

(** ** Iteration order and list erasure *)

Lemma ordered_perm (s : gset Z) : ordered s ≡ₚ elements s.
Proof. apply merge_sort_Permutation. Qed.

Lemma elem_of_ordered (x : Z) (s : gset Z) : x ∈ ordered s ↔ x ∈ s.
Proof. by rewrite ordered_perm, elem_of_elements. Qed.

Lemma NoDup_ordered (s : gset Z) : NoDup (ordered s).
Proof. rewrite ordered_perm. apply NoDup_elements. Qed.

Lemma erase_find_is_Some (x : Z) (l : list Z) :
  x ∈ l → is_Some (erase_find x l).
Proof.
  induction l as [|y l IH]; [by intros ?%elem_of_nil|].
  intros Hin. cbn. destruct (decide (y = x)); [eauto|].
  apply elem_of_cons in Hin as [->|Hin]; [done|].
  destruct (IH Hin) as [l' ->]. cbn. eauto.
Qed.

Lemma erase_find_keeps (x y : Z) (l l' : list Z) :
  erase_find x l = Some l' → y ≠ x → y ∈ l → y ∈ l'.
Proof.
  revert l'. induction l as [|z l IH]; intros l' Herase Hne Hin; [done|].
  cbn in Herase. destruct (decide (z = x)) as [->|].
  - injection Herase as <-. apply elem_of_cons in Hin as [->|]; done.
  - destruct (erase_find x l) as [l0|]; [|done].
    injection Herase as <-.
    apply elem_of_cons in Hin as [->|Hin]; [left|right]. by apply IH.
Qed.

(** ** Deleting a node *)

Lemma incident_live (n e : Z) (ed : Edge) (g : Graph) :
  edgeMap g !! e = Some ed →
  incident n g e = bool_decide (source ed = n) || bool_decide (target ed = n).
Proof.
  intros He. unfold incident, leaves, enters. rewrite He. cbn.
  f_equal; apply bool_decide_ext; split; congruence.
Qed.

Lemma collect_incident_live (n : Z) (g : Graph) (es : list Z) :
  ∀ killList : list Z,
  (∀ e, e ∈ es → is_Some (edgeMap g !! e)) →
  collect_incident n es killList g
  = Some (killList ++ filter (λ e, Is_true (incident n g e)) es, g).
Proof.
  induction es as [|e es IH]; intros killList Hlive.
  { cbn. by rewrite app_nil_r. }
  destruct (Hlive e) as [ed He]; [by left|].
  cbn [collect_incident]. unfold bind at 1.
  rewrite (edgeMap_at_live e ed) by done.
  rewrite <- (incident_live n e ed g) by done.
  destruct (incident n g e) eqn:Hinc.
  - rewrite IH by (intros; apply Hlive; by right).
    rewrite filter_cons_True by (by apply Is_true_true_2).
    by rewrite <- app_assoc.
  - rewrite IH by (intros; apply Hlive; by right).
    by rewrite filter_cons_False by (by apply Is_true_false_2).
Qed.

Lemma foreach_erase (ks : list Z) : ∀ g : Graph,
  foreach ks (λ edge,
    modify (with_edges (λ s, s ∖ {[edge]})) ;;
    modify (with_edgeMap (delete edge))) g
  = Some (tt,
      mkGraph (version g) (nodeId g) (edgeId g) (nodes g) (nodeMap g)
        (foldl (λ s e, s ∖ {[e]}) (edges g) ks)
        (foldl (λ m e, delete e m) (edgeMap g) ks)).
Proof.
  induction ks as [|k ks IH]; intros g; [by destruct g|].
  cbn [foreach]. unfold bind at 1. unfold bind at 1, modify at 1 2.
  rewrite IH. fields. reflexivity.
Qed.

Lemma foldl_difference (ks : list Z) : ∀ s : gset Z,
  foldl (λ s e, s ∖ {[e]}) s ks = s ∖ list_to_set ks.
Proof.
  induction ks as [|k ks IH]; intros s; cbn.
  - by rewrite difference_empty_L.
  - rewrite IH. apply set_eq. intros x.
    rewrite !elem_of_difference, elem_of_union, elem_of_singleton. tauto.
Qed.

Lemma lookup_foldl_delete {V : Type} (ks : list Z) (x : Z) : ∀ m : gmap Z V,
  foldl (λ m e, delete e m) m ks !! x
  = if decide (x ∈ ks) then None else m !! x.
Proof.
  induction ks as [|k ks IH]; intros m; cbn.
  - rewrite decide_False; [done|]. by intros ?%elem_of_nil.
  - rewrite IH. destruct (decide (x ∈ ks)) as [Hin|Hout].
    + rewrite decide_True; [done|]. by right.
    + destruct (decide (x = k)) as [->|Hne].
      * rewrite lookup_delete_eq, decide_True; [done|]. by left.
      * rewrite lookup_delete_ne by done.
        rewrite decide_False; [done|].
        by intros [?|?]%elem_of_cons.
Qed.

Lemma deleteNode_eq (n : Z) (g : Graph) :
  edges g ⊆ dom (edgeMap g) →
  isValidNode n g = true →
  let killList := filter (λ e, Is_true (incident n g e)) (ordered (edges g)) in
  deleteNode n g = Some (n,
    mkGraph (version g + 1) (nodeId g) (edgeId g)
      (nodes g ∖ {[n]}) (delete n (nodeMap g))
      (edges g ∖ list_to_set killList)
      (foldl (λ m e, delete e m) (edgeMap g) killList)).
Proof.
  intros Hdom Hvalid killList.
  unfold deleteNode. unfold bind at 1, gets at 1. rewrite Hvalid. cbn [negb].
  unfold bind at 1, gets at 1. unfold bind at 1.
  rewrite (collect_incident_live n g (ordered (edges g)) []).
  2:{ intros e He%elem_of_ordered. by apply elem_of_dom, Hdom. }
  cbn [app]. fold killList. unfold bind at 1. rewrite foreach_erase.
  steps. by rewrite foldl_difference.
Qed.

Lemma elem_of_killList (n x : Z) (g : Graph) :
  x ∈ filter (λ e, Is_true (incident n g e)) (ordered (edges g))
  ↔ x ∈ edges g ∧ incident n g x = true.
Proof.
  rewrite list_elem_of_filter, elem_of_ordered, Is_true_true. tauto.
Qed.

Lemma incident_is_live (n e : Z) (g : Graph) :
  incident n g e = true → is_Some (edgeMap g !! e).
Proof.
  unfold incident, leaves, enters.
  destruct (edgeMap g !! e); [eauto|]. cbn.
  rewrite !bool_decide_eq_false_2 by done. done.
Qed.

(** What [deleteNode] does to the two stores. *)
Lemma deleteNode_stores (n : Z) (g : Graph) :
  edges g ⊆ dom (edgeMap g) →
  isValidNode n g = true →
  let killList := filter (λ e, Is_true (incident n g e)) (ordered (edges g)) in
  ∃ g', deleteNode n g = Some (n, g') ∧
    nodes g' = nodes g ∖ {[n]} ∧
    nodeMap g' = delete n (nodeMap g) ∧
    edges g' = edges g ∖ list_to_set killList ∧
    (∀ e, e ∈ edges g' ↔ e ∈ edges g ∧ incident n g e = false) ∧
    (∀ e, incident n g e = false → edgeMap g' !! e = edgeMap g !! e) ∧
    (∀ e, e ∈ edges g → incident n g e = true → edgeMap g' !! e = None).
Proof.
  intros Hrecorded Hvalid killList. eexists. split.
  { by apply deleteNode_eq. }
  fold killList. cbn [nodes nodeMap edges edgeMap].
  assert (Hkill : ∀ x, x ∈ killList ↔ x ∈ edges g ∧ incident n g x = true)
    by (intros x; apply elem_of_killList).
  do 3 (split; [done|]). split; [|split].
  - intros e. rewrite elem_of_difference, elem_of_list_to_set, Hkill.
    destruct (incident n g e); intuition congruence.
  - intros e Hinc. rewrite lookup_foldl_delete.
    rewrite decide_False; [done|]. rewrite Hkill. intros [_ ?]. congruence.
  - intros e Hlive Hinc. rewrite lookup_foldl_delete.
    rewrite decide_True; [done|]. by apply Hkill.
Qed.

(** C5.  When every live edge id has a record in the edge map,
    [deleteNode(n)] on a live node [n] returns [n]; afterwards [n] is not
    live, the edge count is the previous one minus the number of live edges
    with source or target [n], the live edges are exactly the previously
    live edges not incident to [n], each of these keeps its record, and no
    live incident edge keeps one. *)
Theorem deleteNode_removes_incident_edges (n : Z) (g : Graph) :
  edges g ⊆ dom (edgeMap g) →
  isValidNode n g = true →
  ∃ g', deleteNode n g = Some (n, g') ∧
    isValidNode n g' = false ∧
    nodes g' = nodes g ∖ {[n]} ∧
    getEdgeCount g' = getEdgeCount g - count_edges (incident n g) g ∧
    (∀ e, e ∈ edges g' ↔ e ∈ edges g ∧ incident n g e = false) ∧
    (∀ e, incident n g e = false → edgeMap g' !! e = edgeMap g !! e) ∧
    (∀ e, e ∈ edges g → incident n g e = true → edgeMap g' !! e = None).
Proof.
  intros Hrecorded Hvalid.
  destruct (deleteNode_stores n g Hrecorded Hvalid)
    as (g' & Hdel & Hnodes & HnodeMap & Hedges & Hlive & Hkept & Hgone).
  exists g'. split; [done|]. split; [|split; [done|split; [|done]]].
  - apply bool_decide_eq_false_2. rewrite HnodeMap, lookup_delete_eq.
    by intros [? ?].
  - unfold getEdgeCount, count_edges. rewrite Hedges.
    set (killList := filter _ _).
    assert (Hsub : list_to_set killList ⊆ edges g).
    { intros x Hx%elem_of_list_to_set.
      by apply elem_of_killList in Hx as [? _]. }
    rewrite size_difference by done.
    pose proof (subseteq_size _ _ Hsub) as Hle.
    rewrite size_list_to_set in Hle |- *
      by apply NoDup_filter, NoDup_ordered.
    lia.
Qed.

(** ** The store operations keep the store well formed *)

Lemma well_formed_new : well_formed Graph_new.
Proof.
  split; cbn.
  - apply dom_empty_L.
  - apply dom_empty_L.
  - intros n Hn. by apply not_elem_of_empty in Hn.
  - intros e ed He. by rewrite lookup_empty in He.
  - intros e ed He. by rewrite lookup_empty in He.
Qed.

Lemma well_formed_addNode (g g' : Graph) (id : Z) :
  well_formed g → addNode g = Some (id, g') → well_formed g'.
Proof.
  intros [Hn He Hfresh Hends Hidx]. rewrite addNode_eq.
  intros [= _ <-]. split; fields.
  - by rewrite dom_insert_L, Hn.
  - done.
  - intros n [Hin|Hin]%elem_of_union.
    + apply elem_of_singleton in Hin. lia.
    + apply Hfresh in Hin. lia.
  - intros e ed Hed. destruct (Hends e ed Hed).
    split; by apply elem_of_union_r.
  - intros e ed Hed. destruct (Hidx e ed Hed) as (l & Hb & Hin).
    exists l. split; [|done]. unfold bucket in *; fields.
    rewrite lookup_insert_ne; [done|].
    destruct (Hends e ed Hed) as [Hs _]. apply Hfresh in Hs. lia.
Qed.

Lemma well_formed_clear (g g' : Graph) :
  clear g = Some (tt, g') → well_formed g'.
Proof. rewrite clear_is_new. intros [= <-]. apply well_formed_new. Qed.

Lemma lookup_subscript_update {V : Type} (d : V) (k n : Z) (f : V → V)
    (m : gmap Z V) :
  subscript_update d k f m !! n
  = if decide (k = n) then Some (f (default d (m !! k))) else m !! n.
Proof. unfold subscript_update. apply lookup_insert. Qed.

Lemma dom_subscript_update {V : Type} (d : V) (k : Z) (f : V → V)
    (m : gmap Z V) :
  is_Some (m !! k) → dom (subscript_update d k f m) = dom m.
Proof.
  intros Hk%elem_of_dom. unfold subscript_update. rewrite dom_insert_L.
  by apply subseteq_union_1_L, singleton_subseteq_l.
Qed.

(** The node map after a successful [addEdge(s, t)] that allocated [id]. *)
Lemma addEdge_eq (s t : Z) (g : Graph) :
  isValidNode s g = true →
  isValidNode t g = true →
  addEdge s t g = Some (edgeId g + 1,
    mkGraph (version g + 1) (nodeId g) (edgeId g + 1) (nodes g)
      (subscript_update Node_default s (push_back_adjacent t (edgeId g + 1))
        (subscript_update Node_default t (with_inDegree Z.succ)
          (subscript_update Node_default s (with_outDegree Z.succ)
            (nodeMap g))))
      ({[edgeId g + 1]} ∪ edges g)
      (<[edgeId g + 1 := mkEdge s t]> (edgeMap g))).
Proof.
  intros Hs Ht. unfold addEdge. steps. rewrite Hs, Ht. reflexivity.
Qed.

Lemma bucket_adjacent (a b : Z) (g : Graph) :
  bucket a b g = (adjacent <$> nodeMap g !! a) ≫= λ adj, adj !! b.
Proof. unfold bucket. by destruct (nodeMap g !! a). Qed.

(** An update of a live node that leaves its adjacency alone leaves every
    adjacency alone. *)
Lemma adjacent_subscript_update (k x : Z) (f : Node → Node)
    (m : gmap Z Node) :
  (∀ nd, adjacent (f nd) = adjacent nd) →
  is_Some (m !! k) →
  adjacent <$> subscript_update Node_default k f m !! x = adjacent <$> m !! x.
Proof.
  intros Hf [nd Hk]. rewrite lookup_subscript_update.
  destruct (decide (k = x)) as [<-|]; [|done].
  rewrite Hk. cbn. by rewrite Hf.
Qed.

Lemma is_Some_subscript_update {V : Type} (d : V) (k x : Z) (f : V → V)
    (m : gmap Z V) :
  is_Some (m !! x) → is_Some (subscript_update d k f m !! x).
Proof. intros Hx. rewrite lookup_subscript_update. by case_decide. Qed.

Lemma addEdge_bucket (s t a b : Z) (g g' : Graph) (e : Z) :
  isValidNode s g = true →
  isValidNode t g = true →
  addEdge s t g = Some (e, g') →
  bucket a b g'
  = if decide (a = s ∧ b = t)
    then Some (default [] (bucket s t g) ++ [e])
    else bucket a b g.
Proof.
  intros Hs Ht. rewrite addEdge_eq by done. intros [= <- <-].
  apply isValidNode_true in Hs, Ht.
  rewrite !bucket_adjacent. cbn [nodeMap edgeId].
  set (m1 := subscript_update Node_default s (with_outDegree Z.succ) (nodeMap g)).
  set (m2 := subscript_update Node_default t (with_inDegree Z.succ) m1).
  assert (Hsame : ∀ x, adjacent <$> m2 !! x = adjacent <$> nodeMap g !! x).
  { intros x. unfold m2, m1.
    rewrite !adjacent_subscript_update; try done.
    by apply is_Some_subscript_update. }
  rewrite lookup_subscript_update.
  destruct (decide (s = a)) as [<-|Hsa].
  - pose proof (Hsame s) as Hadj. destruct Hs as [ns Hs].
    destruct (m2 !! s) as [n2|]; rewrite Hs in Hadj; [|done].
    injection Hadj as Hadj. cbn.
    unfold push_back_adjacent; node_fields.
    rewrite lookup_subscript_update, Hadj, Hs. cbn.
    destruct (decide (t = b)) as [<-|Htb].
    + by rewrite decide_True.
    + by rewrite decide_False by (intros [_ ?]; congruence).
  - rewrite decide_False by (intros [? ?]; congruence).
    by rewrite Hsame.
Qed.

Lemma well_formed_addEdge (s t : Z) (g g' : Graph) (e : Z) :
  well_formed g → addEdge s t g = Some (e, g') → well_formed g'.
Proof.
  intros Hwf Hadd.
  destruct (isValidNode s g) eqn:Hs, (isValidNode t g) eqn:Ht;
    try (rewrite addEdge_dead_endpoint in Hadd by auto; by injection Hadd as _ <-).
  pose proof (addEdge_bucket s t) as Hbucket.
  specialize (λ a b, Hbucket a b g g' e Hs Ht Hadd).
  rewrite addEdge_eq in Hadd by done. injection Hadd as <- <-.
  destruct Hwf as [Hn He Hfresh Hends Hidx].
  apply isValidNode_true in Hs, Ht.
  split; fields.
  - rewrite !dom_subscript_update; try done.
    + rewrite lookup_subscript_update. case_decide; [eauto|done].
    + rewrite !lookup_subscript_update. repeat case_decide; eauto.
  - by rewrite dom_insert_L, He.
  - done.
  - intros e' ed [[<- <-]|[_ Hed]]%lookup_insert_Some.
    + cbn. rewrite <- Hn. split; by apply elem_of_dom.
    + by apply (Hends e').
  - intros e' ed Hed. rewrite Hbucket.
    apply lookup_insert_Some in Hed as [[<- <-]|[Hne Hed]]; cbn.
    + rewrite decide_True by done. eexists; split; [done|].
      apply elem_of_app. right. by left.
    + destruct (Hidx e' ed Hed) as (l & Hl & Hin).
      case_decide as Hst.
      * destruct Hst as [<- <-]. rewrite Hl. cbn.
        eexists; split; [done|]. apply elem_of_app. by left.
      * by exists l.
Qed.

(** ** Deleting an edge *)

Lemma deleteEdge_invalid (e : Z) (g : Graph) :
  isValidEdge e g = false → deleteEdge e g = Some (-1, g).
Proof. intros Hdead. unfold deleteEdge. steps. by rewrite Hdead. Qed.

Lemma deleteEdge_eq (e : Z) (ed : Edge) (l l' : list Z) (g : Graph) :
  edgeMap g !! e = Some ed →
  bucket (source ed) (target ed) g = Some l →
  erase_find e l = Some l' →
  deleteEdge e g = Some (e,
    mkGraph (version g + 1) (nodeId g) (edgeId g) (nodes g)
      (subscript_update Node_default (source ed)
         (with_adjacent (<[target ed := l']>)) (nodeMap g))
      (edges g ∖ {[e]})
      (delete e (edgeMap g))).
Proof.
  intros Hed Hl Herase. unfold bucket in Hl.
  destruct (nodeMap g !! source ed) as [nd|] eqn:Hnd; [|done]. cbn in Hl.
  unfold deleteEdge. unfold bind at 1, gets at 1.
  rewrite (proj2 (isValidEdge_true e g)) by eauto. cbn [negb].
  unfold bind at 1. rewrite (edgeMap_at_live e ed) by done.
  unfold bind at 1. rewrite (nodeMap_at_live (source ed) nd) by done.
  unfold subscript. rewrite Hl.
  unfold bind at 1, lift_option. rewrite Herase.
  reflexivity.
Qed.

Lemma deleteEdge_bucket (e : Z) (ed : Edge) (l l' : list Z) (a b : Z)
    (g g' : Graph) (id : Z) :
  edgeMap g !! e = Some ed →
  bucket (source ed) (target ed) g = Some l →
  erase_find e l = Some l' →
  deleteEdge e g = Some (id, g') →
  bucket a b g'
  = if decide (a = source ed ∧ b = target ed) then Some l' else bucket a b g.
Proof.
  intros Hed Hl Herase. rewrite (deleteEdge_eq e ed l l') by done.
  intros [= _ <-]. unfold bucket in *; fields.
  rewrite lookup_subscript_update.
  destruct (decide (source ed = a)) as [<-|Hne].
  - destruct (nodeMap g !! source ed) as [nd|]; [|done]. cbn in *.
    rewrite lookup_insert.
    destruct (decide (target ed = b)) as [<-|Hnb].
    + by rewrite decide_True.
    + by rewrite decide_False by (intros [_ ?]; congruence).
  - by rewrite decide_False by (intros [? ?]; congruence).
Qed.

Lemma well_formed_deleteEdge (e : Z) (g g' : Graph) (id : Z) :
  well_formed g → deleteEdge e g = Some (id, g') → well_formed g'.
Proof.
  intros Hwf Hdel.
  destruct (isValidEdge e g) eqn:Hvalid.
  2:{ rewrite deleteEdge_invalid in Hdel by done. by injection Hdel as _ <-. }
  apply isValidEdge_true in Hvalid as [ed Hed].
  destruct (wf_indexed g Hwf e ed Hed) as (l & Hl & Hin).
  destruct (erase_find_is_Some e l Hin) as [l' Herase].
  pose proof (deleteEdge_bucket e ed l l') as Hbucket.
  specialize (λ a b, Hbucket a b g g' id Hed Hl Herase Hdel).
  rewrite (deleteEdge_eq e ed l l') in Hdel by done. injection Hdel as _ <-.
  destruct Hwf as [Hn He Hfresh Hends Hidx].
  split; fields.
  - rewrite dom_subscript_update; [done|]. unfold bucket in Hl.
    destruct (nodeMap g !! source ed); [eauto|done].
  - by rewrite dom_delete_L, He.
  - done.
  - intros e' ed' [_ Hed']%lookup_delete_Some. by apply (Hends e').
  - intros e' ed' [Hne Hed']%lookup_delete_Some. rewrite Hbucket.
    destruct (Hidx e' ed' Hed') as (l0 & Hl0 & Hin0).
    case_decide as Hsame; [|by exists l0].
    destruct Hsame as [Hs Ht]. rewrite Hs, Ht, Hl in Hl0.
    injection Hl0 as <-. exists l'. split; [done|].
    by apply (erase_find_keeps e e' l).
Qed.

(** ** Deleting a node keeps the store well formed *)

Lemma deleteNode_invalid (n : Z) (g : Graph) :
  isValidNode n g = false → deleteNode n g = Some (-1, g).
Proof. intros Hdead. unfold deleteNode. steps. by rewrite Hdead. Qed.

Lemma well_formed_recorded (g : Graph) :
  well_formed g → edges g ⊆ dom (edgeMap g).
Proof. intros Hwf. by rewrite (wf_edges g Hwf). Qed.

Lemma deleteNode_bucket (n a b : Z) (g g' : Graph) (id : Z) :
  edges g ⊆ dom (edgeMap g) →
  isValidNode n g = true →
  deleteNode n g = Some (id, g') →
  bucket a b g' = if decide (a = n) then None else bucket a b g.
Proof.
  intros Hdom Hvalid. rewrite deleteNode_eq by done. intros [= _ <-].
  unfold bucket; fields. rewrite lookup_delete.
  destruct (decide (n = a)) as [<-|Hne].
  - by rewrite decide_True.
  - by rewrite decide_False by congruence.
Qed.

Lemma well_formed_deleteNode (n : Z) (g g' : Graph) (id : Z) :
  well_formed g → deleteNode n g = Some (id, g') → well_formed g'.
Proof.
  intros Hwf Hdel.
  destruct (isValidNode n g) eqn:Hvalid.
  2:{ rewrite deleteNode_invalid in Hdel by done. by injection Hdel as _ <-. }
  pose proof (deleteNode_bucket n) as Hbucket.
  pose proof (well_formed_recorded g Hwf) as Hrecorded.
  specialize (λ a b, Hbucket a b g g' id Hrecorded Hvalid Hdel).
  destruct (deleteNode_stores n g Hrecorded Hvalid)
    as (g0 & Hdel0 & Hnodes & _ & _ & Hlive & Hkept & Hgone).
  rewrite Hdel0 in Hdel. injection Hdel as _ <-.
  pose proof Hdel0 as Hstate. rewrite deleteNode_eq in Hstate by done.
  injection Hstate as Hstate.
  destruct Hwf as [Hn He Hfresh Hends Hidx].
  assert (Hrecord : ∀ e ed, edgeMap g0 !! e = Some ed →
            edgeMap g !! e = Some ed ∧ incident n g e = false).
  { intros e ed Hed. destruct (incident n g e) eqn:Hinc.
    - rewrite Hgone in Hed; [done| |done].
      rewrite <- He. by apply elem_of_dom, (incident_is_live n).
    - by rewrite Hkept in Hed. }
  assert (Hfar : ∀ e ed, edgeMap g !! e = Some ed → incident n g e = false →
            source ed ≠ n ∧ target ed ≠ n).
  { intros e ed Hed Hinc. rewrite (incident_live n e ed) in Hinc by done.
    apply orb_false_iff in Hinc as [Hs Ht].
    by apply bool_decide_eq_false in Hs, Ht. }
  split.
  - rewrite Hnodes, <- Hn, <- Hstate. cbn. apply dom_delete_L.
  - apply set_eq. intros e. rewrite Hlive, elem_of_dom, <- He, elem_of_dom.
    split.
    + intros [ed Hed]. destruct (Hrecord e ed Hed). eauto.
    + intros [[ed Hed] Hinc]. exists ed. by rewrite Hkept.
  - intros x Hx. rewrite Hnodes in Hx. apply elem_of_difference in Hx as [Hx _].
    rewrite <- Hstate. cbn. by apply Hfresh.
  - intros e ed Hed. destruct (Hrecord e ed Hed) as [Hold Hinc].
    destruct (Hfar e ed Hold Hinc). destruct (Hends e ed Hold).
    rewrite Hnodes, !elem_of_difference, !elem_of_singleton. tauto.
  - intros e ed Hed. destruct (Hrecord e ed Hed) as [Hold Hinc].
    destruct (Hfar e ed Hold Hinc). rewrite Hbucket.
    rewrite decide_False by done. by apply (Hidx e).
Qed.

(** ** Clearing the edges *)

Lemma foreach_nodeMap_update (f : Node → Node) (ns : list Z) : ∀ g : Graph,
  foreach ns (λ node, nodeMap_update node f) g
  = Some (tt,
      with_nodeMap (λ m,
        foldl (λ m n, subscript_update Node_default n f m) m ns) g).
Proof.
  induction ns as [|n ns IH]; intros g; [by destruct g|].
  cbn [foreach]. steps. rewrite IH. by destruct g.
Qed.

Lemma dom_foldl_subscript_update (f : Node → Node) (ns : list Z) :
  ∀ m : gmap Z Node,
  (∀ n, n ∈ ns → is_Some (m !! n)) →
  dom (foldl (λ m n, subscript_update Node_default n f m) m ns) = dom m.
Proof.
  induction ns as [|n ns IH]; intros m Hlive; [done|]. cbn.
  rewrite IH.
  - apply dom_subscript_update, Hlive. by left.
  - intros x Hx. apply is_Some_subscript_update, Hlive. by right.
Qed.

Lemma clearEdges_eq (g : Graph) :
  clearEdges g = Some (tt,
    mkGraph (version g + 1) (nodeId g) (edgeId g) (nodes g)
      (foldl (λ m n, subscript_update Node_default n (with_adjacent (λ _, ∅)) m)
             (nodeMap g) (ordered (nodes g)))
      ∅ ∅).
Proof.
  unfold clearEdges. rewrite bind_gets. cbn beta.
  rewrite (bind_Some _ _ _ _ _ (foreach_nodeMap_update _ _ g)).
  steps. unfold modify. by destruct g.
Qed.

Lemma well_formed_clearEdges (g g' : Graph) :
  well_formed g → clearEdges g = Some (tt, g') → well_formed g'.
Proof.
  intros [Hn He Hfresh Hends Hidx]. rewrite clearEdges_eq. intros [= <-].
  split; cbn [nodes nodeMap edges edgeMap nodeId].
  - rewrite dom_foldl_subscript_update; [done|].
    intros n Hin%elem_of_ordered. rewrite <- Hn in Hin.
    by apply elem_of_dom.
  - apply dom_empty_L.
  - done.
  - intros e ed Hed. by rewrite lookup_empty in Hed.
  - intros e ed Hed. by rewrite lookup_empty in Hed.
Qed.

(** Every state a graph goes through is well formed. *)
Lemma reachable_well_formed (g : Graph) : reachable g → well_formed g.
Proof.
  induction 1 as [|g g' _ IH Hstep]; [apply well_formed_new|].
  destruct Hstep.
  - by eapply well_formed_addNode.
  - by eapply well_formed_addEdge.
  - by eapply well_formed_deleteEdge.
  - by eapply well_formed_deleteNode.
  - by eapply well_formed_clearEdges.
  - by eapply well_formed_clear.
Qed.

Lemma reachable_one_edge : reachable (after one_edge Graph_new).
Proof.
  apply (reachable_step (after (addNode ;; addNode) Graph_new)).
  { apply (reachable_step (after addNode Graph_new)).
    { apply (reachable_step Graph_new); [apply reachable_new|].
      apply (step_addNode _ 0). vm_compute. reflexivity. }
    apply (step_addNode _ 1). vm_compute. reflexivity. }
  apply (step_addEdge 0 1 _ 0). vm_compute. reflexivity.
Qed.

Lemma deleteNode_removes_incident_edges_witness :
  let g := after one_edge Graph_new in
  ∃ g', deleteNode 1 g = Some (1, g') ∧
        count_edges (incident 1 g) g = 1 ∧
        getEdgeCount g' = getEdgeCount g - count_edges (incident 1 g) g.
Proof.
  intros g.
  destruct (deleteNode_removes_incident_edges 1 g)
    as (g' & Hdel & _ & _ & Hcount & _).
  - apply well_formed_recorded, reachable_well_formed, reachable_one_edge.
  - vm_compute. reflexivity.
  - exists g'. split; [exact Hdel|]. split; [|exact Hcount].
    vm_compute. reflexivity.
Defined.

(** ** Stale edge ids in the adjacency index *)

Lemma getEdges_live (s t : Z) (l : list Z) (g : Graph) :
  bucket s t g = Some l → getEdges s t g = Some (l, g).
Proof.
  unfold bucket. destruct (nodeMap g !! s) as [nd|] eqn:Hs; [|done].
  cbn. intros Hl. unfold getEdges.
  rewrite (bind_Some _ _ _ _ _ (nodeMap_at_live s nd g Hs)).
  unfold subscript. rewrite Hl. steps. unfold modify, ret.
  assert (subscript_update Node_default s
            (with_adjacent (λ _, adjacent nd)) (nodeMap g) = nodeMap g) as Hid.
  { unfold subscript_update. rewrite Hs. apply insert_id.
    rewrite Hs. by destruct nd. }
  do 2 f_equal. rewrite <- (with_nodeMap_same g) at 2.
  unfold with_nodeMap. by rewrite Hid.
Qed.

Lemma hasEdge_bucket (s t : Z) (l : list Z) (g : Graph) :
  bucket s t g = Some l → hasEdge s t g = Some (true, g).
Proof.
  unfold bucket. destruct (nodeMap g !! s) as [nd|] eqn:Hs; [|done].
  cbn. intros Hl. rewrite (hasEdge_live s t nd) by done.
  by rewrite bool_decide_eq_true_2 by eauto.
Qed.



(** ** What the defects look like on every well-formed store *)

(** [hasEdge(s, t)] is true right after a successful [addEdge(s, t)]. *)
Lemma hasEdge_after_addEdge (s t : Z) (g : Graph) :
  isValidNode s g = true →
  isValidNode t g = true →
  ∃ g', addEdge s t g = Some (edgeId g + 1, g') ∧
        isValidEdge (edgeId g + 1) g' = true ∧
        hasEdge s t g' = Some (true, g').
Proof.
  intros Hs Ht. eexists. split; [by apply addEdge_eq|]. split.
  - apply isValidEdge_true. cbn. rewrite lookup_insert_eq. eauto.
  - eapply hasEdge_bucket.
    rewrite (addEdge_bucket s t s t g _ (edgeId g + 1) Hs Ht)
      by (by apply addEdge_eq).
    by rewrite decide_True.
Qed.

(** A successful [deleteEdge] leaves the bucket of the edge in place, so
    [hasEdge] stays true for its endpoints whatever is left in the bucket,
    and it leaves both degree counters of every node as they were. *)
Lemma deleteEdge_leaves_bucket_and_degrees (e : Z) (ed : Edge) (g : Graph) :
  well_formed g →
  edgeMap g !! e = Some ed →
  ∃ g', deleteEdge e g = Some (e, g') ∧
        isValidEdge e g' = false ∧
        hasEdge (source ed) (target ed) g' = Some (true, g') ∧
        ∀ n, inDegree <$> nodeMap g' !! n = inDegree <$> nodeMap g !! n ∧
             outDegree <$> nodeMap g' !! n = outDegree <$> nodeMap g !! n.
Proof.
  intros Hwf Hed.
  destruct (wf_indexed g Hwf e ed Hed) as (l & Hl & Hin).
  destruct (erase_find_is_Some e l Hin) as [l' Herase].
  eexists. split; [by apply (deleteEdge_eq e ed l l')|]. split; [|split].
  - apply bool_decide_eq_false_2. cbn. rewrite lookup_delete_eq.
    by intros [? ?].
  - eapply hasEdge_bucket.
    rewrite (deleteEdge_bucket e ed l l' _ _ g _ e Hed Hl Herase)
      by (by apply (deleteEdge_eq e ed l l')).
    by rewrite decide_True.
  - intros n. cbn. rewrite lookup_subscript_update.
    destruct (decide (source ed = n)) as [<-|]; [|done].
    unfold bucket in Hl.
    destruct (nodeMap g !! source ed) as [nd|]; [|done].
    done.
Qed.

(** ** The adapter always returns *)

Lemma edgeMap_at_edges (e : Z) (g : Graph) :
  ∃ ed g', edgeMap_at e g = Some (ed, g') ∧
           edges g' = edges g ∧ nodes g' = nodes g.
Proof.
  unfold edgeMap_at, subscript.
  destruct (edgeMap g !! e); eexists _, _; (split; [reflexivity|done]).
Qed.

Lemma edge_loop_returns (rounds : nat) : ∀ (i : Z) (b : BoostGraph) (g : Graph),
  Z.max 0 (getEdgeCount g - i) < Z.of_nat rounds →
  ∃ b' g', for_loop rounds (λ edge g, edge <? getEdgeCount g)
             (λ edge b,
                let! s := edgeMap_at edge in
                let! t := edgeMap_at edge in
                ret (add_edge (source s) (target t) b)) i b g
           = Some (b', g') ∧ nodes g' = nodes g.
Proof.
  induction rounds as [|rounds IH]; intros i b g Hrounds; [lia|].
  cbn [for_loop]. steps.
  destruct (Z.ltb_spec i (getEdgeCount g)) as [Hlt|Hge].
  2:{ by eexists _, _. }
  destruct (edgeMap_at_edges i g) as (s & g1 & Hs & Hedges1 & Hnodes1).
  destruct (edgeMap_at_edges i g1) as (t & g2 & Ht & Hedges2 & Hnodes2).
  steps. rewrite (bind_Some _ _ _ _ _ Hs). steps.
  rewrite (bind_Some _ _ _ _ _ Ht). steps.
  destruct (IH (i + 1) (add_edge (source s) (target t) b) g2)
    as (b' & g' & Hloop & Hnodes).
  { unfold getEdgeCount in *. rewrite Hedges2, Hedges1. lia. }
  exists b', g'. split; [done|]. congruence.
Qed.

(** [toBoost()] returns on every graph, and leaves the live node set as it
    was. *)
Lemma toBoost_returns (g : Graph) :
  ∃ b g', toBoost g = Some (b, g') ∧ nodes g' = nodes g.
Proof.
  unfold toBoost. steps. cbn [for_loop]. steps.
  assert ((0 >? getNodeCount g) = false) as ->.
  { rewrite Z.gtb_ltb. apply Z.ltb_ge. unfold getNodeCount. lia. }
  steps. apply edge_loop_returns. unfold getEdgeCount. lia.
Qed.

(** * Further properties of the store *)

(** ** What one mutator call does to the counters and the live sets *)

Lemma step_cases (g g' : Graph) :
  well_formed g → step g g' →
  g' = g ∨ g' = Graph_new ∨
  (version g' = version g + 1 ∧
   ((nodeId g' = nodeId g + 1 ∧ edgeId g' = edgeId g ∧
     nodes g' = {[nodeId g + 1]} ∪ nodes g ∧ edges g' = edges g) ∨
    (nodeId g' = nodeId g ∧ edgeId g' = edgeId g + 1 ∧
     nodes g' = nodes g ∧ edges g' = {[edgeId g + 1]} ∪ edges g) ∨
    (nodeId g' = nodeId g ∧ edgeId g' = edgeId g ∧
     nodes g' ⊆ nodes g ∧ edges g' ⊆ edges g))).
Proof.
  intros Hwf Hstep.
  destruct Hstep as [g id g' Hop|s t g id g' Hop|e g id g' Hop|n g id g' Hop
                    |g g' Hop|g g' Hop].
  - rewrite addNode_eq in Hop. injection Hop as _ <-.
    right; right. split; [done|]. left. done.
  - destruct (isValidNode s g) eqn:Hs, (isValidNode t g) eqn:Ht;
      try (rewrite addEdge_dead_endpoint in Hop by auto;
           injection Hop as _ <-; by left).
    rewrite addEdge_eq in Hop by done. injection Hop as _ <-.
    right; right. split; [done|]. right; left. done.
  - destruct (isValidEdge e g) eqn:Hvalid.
    2:{ rewrite deleteEdge_invalid in Hop by done.
        injection Hop as _ <-. by left. }
    apply isValidEdge_true in Hvalid as [ed Hed].
    destruct (wf_indexed g Hwf e ed Hed) as (l & Hl & Hin).
    destruct (erase_find_is_Some e l Hin) as [l' Herase].
    rewrite (deleteEdge_eq e ed l l') in Hop by done. injection Hop as _ <-.
    right; right. split; [done|]. right; right. cbn.
    repeat split; [done|]. apply subseteq_difference_l. done.
  - destruct (isValidNode n g) eqn:Hvalid.
    2:{ rewrite deleteNode_invalid in Hop by done.
        injection Hop as _ <-. by left. }
    rewrite deleteNode_eq in Hop
      by (done || by apply well_formed_recorded).
    injection Hop as _ <-.
    right; right. split; [done|]. right; right. cbn.
    repeat split; by apply subseteq_difference_l.
  - rewrite clearEdges_eq in Hop. injection Hop as <-.
    right; right. split; [done|]. right; right. cbn.
    repeat split; [done|]. apply empty_subseteq.
  - rewrite clear_is_new in Hop. injection Hop as <-. right; by left.
Qed.

Lemma ids_bounded_new : ids_bounded Graph_new.
Proof.
  split; cbn; try lia; intros x Hx; by apply not_elem_of_empty in Hx.
Qed.

Lemma ids_bounded_step (g g' : Graph) :
  well_formed g → ids_bounded g → step g g' → ids_bounded g'.
Proof.
  intros Hwf [Hn He Hni Hei Hv] Hstep.
  destruct (step_cases g g' Hwf Hstep)
    as [->|[->|(Hv' & [(Hni' & Hei' & Hn' & He')
                      |[(Hni' & Hei' & Hn' & He')
                       |(Hni' & Hei' & Hn' & He')]])]];
    [done|apply ids_bounded_new|..].
  - split; rewrite ?Hv', ?Hni', ?Hei', ?Hn', ?He'; try lia; [|done].
    intros n [Hin|Hin]%elem_of_union.
    + apply elem_of_singleton in Hin. lia.
    + apply Hn in Hin. lia.
  - split; rewrite ?Hv', ?Hni', ?Hei', ?Hn', ?He'; try lia; [done|].
    intros e [Hin|Hin]%elem_of_union.
    + apply elem_of_singleton in Hin. lia.
    + apply He in Hin. lia.
  - split; rewrite ?Hv', ?Hni', ?Hei'; try lia.
    + intros n Hin. by apply Hn, Hn'.
    + intros e Hin. by apply He, He'.
Qed.

Lemma reachable_ids_bounded (g : Graph) : reachable g → ids_bounded g.
Proof.
  induction 1 as [|g g' Hreach IH Hstep]; [apply ids_bounded_new|].
  apply (ids_bounded_step g g'); [by apply reachable_well_formed|done..].
Qed.

Lemma size_bounded (s : gset Z) (k : Z) :
  (∀ x, x ∈ s → 0 ≤ x ≤ k) → -1 ≤ k → Z.of_nat (size s) ≤ k + 1.
Proof.
  intros Hs Hk.
  assert (Hsub : s ⊆ list_to_set (seqZ 0 (k + 1))).
  { intros x Hx. apply elem_of_list_to_set, elem_of_seqZ.
    specialize (Hs x Hx). lia. }
  apply subseteq_size in Hsub.
  rewrite size_list_to_set in Hsub by apply NoDup_seqZ.
  rewrite length_seqZ in Hsub. lia.
Qed.

(** X1.  In every state a graph reaches through its mutators, the nodes
    and edges that [isValidNode] and [isValidEdge] accept are exactly the
    live sets that [getNodes()] and [getEdges()] return, and both endpoints
    of every live edge are live nodes: no edge outlives an endpoint. *)
Theorem reachable_live_sets (g : Graph) :
  reachable g →
  (∀ n, isValidNode n g = true ↔ n ∈ nodes g) ∧
  (∀ e, isValidEdge e g = true ↔ e ∈ edges g) ∧
  (∀ e ed, e ∈ edges g → edgeMap g !! e = Some ed →
     isValidNode (source ed) g = true ∧ isValidNode (target ed) g = true).
Proof.
  intros Hwf%reachable_well_formed.
  destruct Hwf as [Hn He _ Hends _]. repeat split.
  - intros Hvalid%isValidNode_true. rewrite <- Hn. by apply elem_of_dom.
  - intros Hin. apply isValidNode_true, elem_of_dom. by rewrite Hn.
  - intros Hvalid%isValidEdge_true. rewrite <- He. by apply elem_of_dom.
  - intros Hin. apply isValidEdge_true, elem_of_dom. by rewrite He.
  - apply isValidNode_true, elem_of_dom. rewrite Hn.
    by destruct (Hends e ed).
  - apply isValidNode_true, elem_of_dom. rewrite Hn.
    by destruct (Hends e ed).
Qed.

Lemma reachable_live_sets_witness :
  let g := after one_edge Graph_new in
  isValidNode 1 g = true ↔ 1 ∈ nodes g.
Proof.
  intros g. destruct (reachable_live_sets g reachable_one_edge) as [Hn _].
  apply Hn.
Defined.

(** X2.  In every reachable state the live node ids lie in
    [0..nodeId] and the live edge ids in [0..edgeId], so the id that the
    next [addNode()] or [addEdge] allocates (the counter plus one) is not
    live; the counts are at most the counter plus one, and the version is
    at least its initial value -1. *)
Theorem reachable_ids_in_range (g : Graph) :
  reachable g →
  (∀ n, n ∈ nodes g → 0 ≤ n ≤ nodeId g) ∧
  (∀ e, e ∈ edges g → 0 ≤ e ≤ edgeId g) ∧
  isValidNode (nodeId g + 1) g = false ∧
  isValidEdge (edgeId g + 1) g = false ∧
  getNodeCount g ≤ nodeId g + 1 ∧
  getEdgeCount g ≤ edgeId g + 1 ∧
  -1 ≤ version g.
Proof.
  intros Hreach.
  pose proof (reachable_well_formed g Hreach) as [Hn He _ _ _].
  pose proof (reachable_ids_bounded g Hreach) as [Hbn Hbe Hni Hei Hv].
  split; [done|]. split; [done|]. split; [|split; [|split; [|split]]].
  - apply bool_decide_eq_false_2. intros Hin%elem_of_dom.
    rewrite Hn in Hin. apply Hbn in Hin. lia.
  - apply bool_decide_eq_false_2. intros Hin%elem_of_dom.
    rewrite He in Hin. apply Hbe in Hin. lia.
  - by apply size_bounded.
  - by apply size_bounded.
  - done.
Qed.

Lemma reachable_ids_in_range_witness :
  let g := after one_edge Graph_new in
  isValidNode (nodeId g + 1) g = false ∧ getNodeCount g ≤ nodeId g + 1.
Proof.
  intros g.
  destruct (reachable_ids_in_range g reachable_one_edge)
    as (_ & _ & Hnext & _ & Hcount & _).
  split; [exact Hnext|exact Hcount].
Defined.

(** X3.  One call of a mutator ([addNode], [addEdge], [deleteEdge],
    [deleteNode], [clearEdges], [clear]) on a reachable state either leaves
    the object as it was (a refused call), or is [clear()] and leaves a new
    graph, or raises the version by exactly one; in the last case each id
    counter stays or goes up by one, and at most one of them moves. *)
Theorem mutator_call_version (g g' : Graph) :
  reachable g → step g g' →
  g' = g ∨ g' = Graph_new ∨
  (version g' = version g + 1 ∧
   ((nodeId g' = nodeId g + 1 ∧ edgeId g' = edgeId g) ∨
    (nodeId g' = nodeId g ∧ edgeId g' = edgeId g + 1) ∨
    (nodeId g' = nodeId g ∧ edgeId g' = edgeId g))).
Proof.
  intros Hwf%reachable_well_formed Hstep.
  destruct (step_cases g g' Hwf Hstep)
    as [->|[->|(Hv & [(? & ? & _)|[(? & ? & _)|(? & ? & _)]])]]; auto.
  - right; right. split; [done|]. by left.
  - right; right. split; [done|]. right; by left.
  - right; right. split; [done|]. right; by right.
Qed.

Lemma mutator_call_version_witness :
  let g := after one_edge Graph_new in
  let g' := after (one_edge ;; deleteEdge 0) Graph_new in
  g' = g ∨ g' = Graph_new ∨
  (version g' = version g + 1 ∧
   ((nodeId g' = nodeId g + 1 ∧ edgeId g' = edgeId g) ∨
    (nodeId g' = nodeId g ∧ edgeId g' = edgeId g + 1) ∨
    (nodeId g' = nodeId g ∧ edgeId g' = edgeId g))).
Proof.
  intros g g'. apply mutator_call_version; [apply reachable_one_edge|].
  apply (step_deleteEdge 0 _ 0). vm_compute. reflexivity.
Defined.

(** ** Allocation *)

Lemma size_add_fresh (x : Z) (s : gset Z) :
  x ∉ s → Z.of_nat (size ({[x]} ∪ s)) = Z.of_nat (size s) + 1.
Proof.
  intros Hx. rewrite size_union by (apply disjoint_singleton_l; done).
  rewrite size_singleton. lia.
Qed.

(** X4.  On a reachable state [addNode()] returns the node counter plus
    one, an id that was not live; the node count goes up by one, the new
    node is valid and has the record of a new node, and every other node
    record and the whole edge store are as before. *)
Theorem addNode_allocates_fresh (g : Graph) :
  reachable g →
  ∃ g', addNode g = Some (nodeId g + 1, g') ∧
    isValidNode (nodeId g + 1) g = false ∧
    isValidNode (nodeId g + 1) g' = true ∧
    nodes g' = {[nodeId g + 1]} ∪ nodes g ∧
    getNodeCount g' = getNodeCount g + 1 ∧
    nodeMap g' !! (nodeId g + 1) = Some Node_default ∧
    (∀ m, m ≠ nodeId g + 1 → nodeMap g' !! m = nodeMap g !! m) ∧
    edges g' = edges g ∧ edgeMap g' = edgeMap g.
Proof.
  intros Hreach.
  pose proof (reachable_well_formed g Hreach) as [Hn _ Hfresh _ _].
  assert (Hnew : nodeId g + 1 ∉ nodes g).
  { intros Hin%Hfresh. lia. }
  eexists. split; [apply addNode_eq|]. cbn.
  split; [|split; [|split; [done|split; [|split; [|split]]]]].
  - apply bool_decide_eq_false_2. intros Hin%elem_of_dom. by rewrite Hn in Hin.
  - apply isValidNode_true. cbn. rewrite lookup_insert_eq. eauto.
  - unfold getNodeCount. cbn. by apply size_add_fresh.
  - apply lookup_insert_eq.
  - intros m Hm. by rewrite lookup_insert_ne.
  - done.
Qed.

Lemma addNode_allocates_fresh_witness :
  let g := after one_edge Graph_new in
  ∃ g', addNode g = Some (2, g') ∧ getNodeCount g' = 3.
Proof.
  intros g.
  destruct (addNode_allocates_fresh g reachable_one_edge)
    as (g' & Hadd & _ & _ & _ & Hcount & _).
  exists g'. split; [exact Hadd|]. rewrite Hcount. vm_compute. reflexivity.
Defined.

(** X5.  On a reachable state [addEdge(s, t)] between two live nodes
    returns the edge counter plus one, an id that was not live; the edge
    count goes up by one, the new edge has the record (s, t) and the other
    edge records are as before, the live node set is unchanged, the new id
    is appended at the end of the bucket of [s] for [t], and every other
    bucket is as before. *)
Theorem addEdge_allocates_fresh (s t : Z) (g : Graph) :
  reachable g →
  isValidNode s g = true →
  isValidNode t g = true →
  ∃ g', addEdge s t g = Some (edgeId g + 1, g') ∧
    isValidEdge (edgeId g + 1) g = false ∧
    isValidEdge (edgeId g + 1) g' = true ∧
    getEdgeCount g' = getEdgeCount g + 1 ∧
    edgeMap g' !! (edgeId g + 1) = Some (mkEdge s t) ∧
    (∀ e, e ≠ edgeId g + 1 → edgeMap g' !! e = edgeMap g !! e) ∧
    nodes g' = nodes g ∧
    getEdges s t g'
      = Some (default [] (bucket s t g) ++ [edgeId g + 1], g') ∧
    (∀ a b, ¬ (a = s ∧ b = t) → bucket a b g' = bucket a b g).
Proof.
  intros Hreach Hs Ht.
  pose proof (reachable_well_formed g Hreach) as [_ He _ _ _].
  pose proof (reachable_ids_bounded g Hreach) as [_ Hbe _ _ _].
  assert (Hnew : edgeId g + 1 ∉ edges g).
  { intros Hin%Hbe. lia. }
  pose proof (addEdge_bucket s t) as Hbucket.
  specialize (λ a b, Hbucket a b g _ (edgeId g + 1) Hs Ht (addEdge_eq s t g Hs Ht)).
  eexists. split; [by apply addEdge_eq|].
  split; [|split; [|split; [|split; [|split; [|split; [done|split]]]]]].
  - apply bool_decide_eq_false_2. intros Hin%elem_of_dom. by rewrite He in Hin.
  - apply isValidEdge_true. cbn. rewrite lookup_insert_eq. eauto.
  - unfold getEdgeCount. cbn. by apply size_add_fresh.
  - apply lookup_insert_eq.
  - intros e Hne. cbn. by rewrite lookup_insert_ne.
  - apply getEdges_live. rewrite Hbucket. by rewrite decide_True.
  - intros a b Hab. rewrite Hbucket. by rewrite decide_False.
Qed.

Lemma addEdge_allocates_fresh_witness :
  let g := after one_edge Graph_new in
  ∃ g', addEdge 0 1 g = Some (1, g') ∧
        getEdgeCount g' = 2 ∧
        getEdges 0 1 g' = Some ([0; 1], g').
Proof.
  intros g.
  destruct (addEdge_allocates_fresh 0 1 g reachable_one_edge)
    as (g' & Hadd & _ & _ & Hcount & _ & _ & _ & Hget & _);
    [vm_compute; reflexivity | vm_compute; reflexivity |].
  exists g'. split; [exact Hadd|]. split.
  - rewrite Hcount. vm_compute. reflexivity.
  - exact Hget.
Defined.

(** ** Degree counters *)

Lemma getDegree_live (n : Z) (nd : Node) (g : Graph) :
  nodeMap g !! n = Some nd →
  getDegree n g = Some (inDegree nd + outDegree nd, g).
Proof.
  intros Hn. unfold getDegree.
  rewrite (bind_Some _ _ _ _ _ (nodeMap_at_live n nd g Hn)).
  by rewrite (bind_Some _ _ _ _ _ (nodeMap_at_live n nd g Hn)).
Qed.

(** The record of every node after a successful [addEdge(s, t)]. *)
Lemma addEdge_node_record (s t n : Z) (nd : Node) (g g' : Graph) (e : Z) :
  isValidNode s g = true →
  isValidNode t g = true →
  addEdge s t g = Some (e, g') →
  nodeMap g !! n = Some nd →
  ∃ nd', nodeMap g' !! n = Some nd' ∧
    outDegree nd' = outDegree nd + (if decide (n = s) then 1 else 0) ∧
    inDegree nd' = inDegree nd + (if decide (n = t) then 1 else 0) ∧
    component nd' = component nd.
Proof.
  intros Hs Ht. rewrite addEdge_eq by done. intros [= <- <-] Hn.
  apply isValidNode_true in Hs as [ns Hs], Ht as [nt Ht].
  cbn [nodeMap]. rewrite !lookup_subscript_update.
  unfold push_back_adjacent, with_adjacent, with_inDegree, with_outDegree.
  repeat first
    [ case_decide; simplify_eq
    | rewrite Hs | rewrite Ht | rewrite Hn
    | progress cbn [default from_option id inDegree outDegree component] ];
    (eexists; split; [reflexivity|]); cbn; repeat split; lia.
Qed.

(** X6.  A successful [addEdge(s, t)] raises the out-degree counter of [s]
    and the in-degree counter of [t] by one and leaves every other counter
    of every node as it was; [getDegree] of a node therefore goes up by the
    number of ends the new edge has at it. *)
Theorem addEdge_raises_degrees (s t : Z) (g : Graph) :
  isValidNode s g = true →
  isValidNode t g = true →
  ∃ g', addEdge s t g = Some (edgeId g + 1, g') ∧
    ∀ n nd, nodeMap g !! n = Some nd →
      ∃ nd', nodeMap g' !! n = Some nd' ∧
        outDegree nd' = outDegree nd + (if decide (n = s) then 1 else 0) ∧
        inDegree nd' = inDegree nd + (if decide (n = t) then 1 else 0) ∧
        getDegree n g = Some (inDegree nd + outDegree nd, g) ∧
        getDegree n g'
          = Some (inDegree nd + outDegree nd
                  + (if decide (n = s) then 1 else 0)
                  + (if decide (n = t) then 1 else 0), g').
Proof.
  intros Hs Ht. eexists. split; [by apply addEdge_eq|].
  intros n nd Hn.
  destruct (addEdge_node_record s t n nd g _ _ Hs Ht (addEdge_eq s t g Hs Ht) Hn)
    as (nd' & Hn' & Hout & Hin & _).
  exists nd'. split; [done|]. split; [done|]. split; [done|].
  split; [by apply getDegree_live|].
  rewrite (getDegree_live n nd') by done. do 2 f_equal. lia.
Qed.

Lemma addEdge_raises_degrees_witness :
  let g := after (addNode ;; addNode) Graph_new in
  ∃ g', addEdge 0 1 g = Some (0, g') ∧
        getDegree 0 g' = Some (1, g') ∧ getDegree 1 g' = Some (1, g').
Proof.
  intros g.
  destruct (addEdge_raises_degrees 0 1 g) as (g' & Hadd & Hdeg);
    [vm_compute; reflexivity | vm_compute; reflexivity |].
  exists g'. split; [exact Hadd|]. split.
  - destruct (Hdeg 0 Node_default) as (_ & _ & _ & _ & _ & H0);
      [vm_compute; reflexivity | exact H0].
  - destruct (Hdeg 1 Node_default) as (_ & _ & _ & _ & _ & H1);
      [vm_compute; reflexivity | exact H1].
Defined.

Lemma isBidirectional_buckets (a b : Z) (l1 l2 : list Z) (g : Graph) :
  bucket a b g = Some l1 → bucket b a g = Some l2 →
  isBidirectional a b g = Some (true, g).
Proof.
  intros Hab Hba. unfold isBidirectional.
  rewrite (bind_Some _ _ _ _ _ (hasEdge_bucket a b l1 g Hab)).
  by apply (hasEdge_bucket b a l2).
Qed.

(** X7.  A self-loop: [addEdge(n, n)] on a live node succeeds, raises
    [getDegree(n)] by two, puts the new id at the end of [getEdges(n, n)],
    and makes [hasEdge(n, n)] and [isBidirectional(n, n)] true. *)
Theorem addEdge_self_loop (n : Z) (g : Graph) :
  isValidNode n g = true →
  ∃ g' d l, addEdge n n g = Some (edgeId g + 1, g') ∧
    getDegree n g = Some (d, g) ∧
    getDegree n g' = Some (d + 2, g') ∧
    getEdges n n g' = Some (l ++ [edgeId g + 1], g') ∧
    hasEdge n n g' = Some (true, g') ∧
    isBidirectional n n g' = Some (true, g').
Proof.
  intros Hvalid. pose proof Hvalid as [nd Hn]%isValidNode_true.
  pose proof (addEdge_eq n n g Hvalid Hvalid) as Hadd.
  match type of Hadd with _ = Some (_, ?state) => set (g' := state) in * end.
  destruct (addEdge_node_record n n n nd g g' _ Hvalid Hvalid Hadd Hn)
    as (nd' & Hn' & Hout & Hin & _).
  rewrite !decide_True in Hout, Hin by done.
  assert (Hbucket : bucket n n g'
                    = Some (default [] (bucket n n g) ++ [edgeId g + 1])).
  { rewrite (addEdge_bucket n n n n g g' _ Hvalid Hvalid Hadd).
    by rewrite decide_True. }
  exists g', (inDegree nd + outDegree nd), (default [] (bucket n n g)).
  split; [exact Hadd|]. split; [by apply getDegree_live|].
  split; [|split; [|split]].
  - rewrite (getDegree_live n nd') by done. do 2 f_equal. lia.
  - by apply getEdges_live.
  - by eapply hasEdge_bucket.
  - by eapply isBidirectional_buckets.
Qed.

Lemma addEdge_self_loop_witness :
  let g := after addNode Graph_new in
  ∃ g' l, addEdge 0 0 g = Some (0, g') ∧
          getDegree 0 g' = Some (2, g') ∧
          getEdges 0 0 g' = Some (l ++ [0], g') ∧
          isBidirectional 0 0 g' = Some (true, g').
Proof.
  intros g.
  destruct (addEdge_self_loop 0 g)
    as (g' & d & l & Hadd & Hd & Hd' & Hget & _ & Hbi);
    [vm_compute; reflexivity|].
  assert (d = 0) as -> by (vm_compute in Hd; congruence).
  exists g', l. split; [exact Hadd|]. split; [exact Hd'|].
  split; [exact Hget|exact Hbi].
Defined.

(** ** The degree invariant while nothing is deleted *)

Lemma filter_ext_elem (P Q : Z → Prop) `{∀ x, Decision (P x)}
    `{∀ x, Decision (Q x)} (l : list Z) :
  (∀ x, x ∈ l → P x ↔ Q x) → filter P l = filter Q l.
Proof.
  induction l as [|x l IH]; intros Hext; [done|].
  assert (Hx : P x ↔ Q x) by (apply Hext; by left).
  assert (Hl : filter P l = filter Q l)
    by (apply IH; intros y Hy; apply Hext; by right).
  destruct (decide (P x)) as [HP|HP].
  - rewrite !filter_cons_True by tauto. by rewrite Hl.
  - rewrite !filter_cons_False by tauto. done.
Qed.

Lemma count_edges_ext (p q : Z → bool) (g g' : Graph) :
  edges g' = edges g →
  (∀ e, e ∈ edges g → p e = q e) →
  count_edges p g' = count_edges q g.
Proof.
  intros Hedges Hext. unfold count_edges. rewrite Hedges. do 2 f_equal.
  apply filter_ext_elem. intros e He%elem_of_ordered. by rewrite Hext.
Qed.

Lemma count_edges_add (p q : Z → bool) (e : Z) (g g' : Graph) :
  edges g' = {[e]} ∪ edges g →
  e ∉ edges g →
  (∀ x, x ∈ edges g → p x = q x) →
  count_edges p g' = count_edges q g + (if p e then 1 else 0).
Proof.
  intros Hedges Hnew Hext. unfold count_edges. rewrite Hedges.
  assert (Hperm : ordered ({[e]} ∪ edges g) ≡ₚ e :: ordered (edges g)).
  { rewrite !ordered_perm. by apply elements_union_singleton. }
  rewrite Hperm.
  assert (Hsame : filter (λ x, Is_true (p x)) (ordered (edges g))
                  = filter (λ x, Is_true (q x)) (ordered (edges g))).
  { apply filter_ext_elem. intros x Hx%elem_of_ordered. by rewrite Hext. }
  destruct (p e) eqn:Hp.
  - rewrite filter_cons_True by (by apply Is_true_true_2).
    rewrite Hsame. cbn [length]. lia.
  - rewrite filter_cons_False by (by apply Is_true_false_2).
    rewrite Hsame. lia.
Qed.

Lemma degree_invariant_true (g : Graph) :
  degree_invariant g = true ↔
  ∀ n nd, n ∈ nodes g → nodeMap g !! n = Some nd →
    inDegree nd = count_edges (enters n g) g ∧
    outDegree nd = count_edges (leaves n g) g.
Proof.
  unfold degree_invariant. rewrite forallb_forall. split.
  - intros Hall n nd Hn Hnd.
    specialize (Hall n). unfold degrees_match in Hall. rewrite Hnd in Hall.
    apply andb_true_iff in Hall as [Hi Ho].
    + by apply bool_decide_eq_true in Hi, Ho.
    + by apply list_elem_of_In, elem_of_ordered.
  - intros Hall n Hn%list_elem_of_In%elem_of_ordered.
    unfold degrees_match. destruct (nodeMap g !! n) as [nd|] eqn:Hnd; [|done].
    destruct (Hall n nd Hn Hnd) as [Hi Ho].
    apply andb_true_iff. split; by apply bool_decide_eq_true.
Qed.

Lemma degree_invariant_addEdge (s t e : Z) (g g' : Graph) :
  reachable g →
  degree_invariant g = true →
  addEdge s t g = Some (e, g') →
  degree_invariant g' = true.
Proof.
  intros Hreach Hinv Hadd.
  destruct (isValidNode s g) eqn:Hs, (isValidNode t g) eqn:Ht;
    try (rewrite addEdge_dead_endpoint in Hadd by auto;
         by injection Hadd as _ <-).
  pose proof (reachable_well_formed g Hreach) as [Hn He _ _ _].
  pose proof (reachable_ids_bounded g Hreach) as [_ Hbe _ _ _].
  assert (Hnew : edgeId g + 1 ∉ edges g) by (intros Hin%Hbe; lia).
  pose proof (addEdge_node_record s t) as Hrecord.
  specialize (λ n nd, Hrecord n nd g g' e Hs Ht Hadd).
  rewrite addEdge_eq in Hadd by done. injection Hadd as <- <-.
  rewrite degree_invariant_true in Hinv |- *.
  intros n nd' Hin Hnd'. cbn [nodes] in Hin.
  assert (is_Some (nodeMap g !! n)) as [nd Hnd]
    by (apply elem_of_dom; by rewrite Hn).
  destruct (Hrecord n nd Hnd) as (nd'' & Hnd'' & Hout & Hinn & _).
  rewrite Hnd' in Hnd''. injection Hnd'' as <-.
  destruct (Hinv n nd Hin Hnd) as [Hi Ho].
  match goal with |- context [count_edges _ ?state] => set (g' := state) end.
  assert (Hother : ∀ x, x ∈ edges g →
            enters n g' x = enters n g x ∧ leaves n g' x = leaves n g x).
  { intros x Hx. unfold enters, leaves. cbn [edgeMap g'].
    rewrite lookup_insert_ne by (intros <-; done). done. }
  rewrite (count_edges_add (enters n g') (enters n g) (edgeId g + 1) g g');
    [|done|done|intros x Hx; by apply Hother].
  rewrite (count_edges_add (leaves n g') (leaves n g) (edgeId g + 1) g g');
    [|done|done|intros x Hx; by apply Hother].
  unfold enters at 2, leaves at 2. cbn [edgeMap g'].
  rewrite lookup_insert_eq. cbn.
  rewrite Hinn, Hout, Hi, Ho.
  split; do 2 f_equal; repeat case_decide; case_bool_decide; congruence.
Qed.

Lemma degree_invariant_addNode (id : Z) (g g' : Graph) :
  reachable g →
  degree_invariant g = true →
  addNode g = Some (id, g') →
  degree_invariant g' = true.
Proof.
  intros Hreach Hinv. rewrite addNode_eq. intros [= _ <-].
  pose proof (reachable_well_formed g Hreach) as [Hn He Hfresh Hends _].
  rewrite degree_invariant_true in Hinv |- *.
  intros n nd Hin Hnd. cbn [nodes nodeMap] in Hin, Hnd.
  match goal with |- context [count_edges _ ?state] => set (g' := state) end.
  assert (Hcount : ∀ p, count_edges p g' = count_edges p g)
    by (intros p; by apply count_edges_ext).
  rewrite !Hcount. change (enters n g') with (enters n g).
  change (leaves n g') with (leaves n g).
  destruct (decide (n = nodeId g + 1)) as [->|Hne].
  - rewrite lookup_insert_eq in Hnd. injection Hnd as <-. cbn.
    assert (Hnone : ∀ p, (∀ x, x ∈ edges g → p x = false) →
              count_edges p g = 0).
    { intros p Hp. unfold count_edges.
      assert (Hall : ∀ x, x ∈ ordered (edges g) → p x = false)
        by (intros x Hx%elem_of_ordered; by apply Hp).
      induction (ordered (edges g)) as [|x l IH]; [done|].
      rewrite filter_cons_False
        by (apply Is_true_false_2, Hall; by left).
      apply IH. intros y Hy. apply Hall. by right. }
    assert (Hfar : ∀ x ed, edgeMap g !! x = Some ed →
              source ed ≠ nodeId g + 1 ∧ target ed ≠ nodeId g + 1).
    { intros x ed Hed. destruct (Hends x ed Hed) as [Hs%Hfresh Ht%Hfresh].
      lia. }
    split; symmetry; apply Hnone; intros x Hx;
      apply bool_decide_eq_false_2;
      (destruct (edgeMap g !! x) as [ed|] eqn:Hed; [|done]);
      destruct (Hfar x ed Hed); cbn; congruence.
  - rewrite lookup_insert_ne in Hnd by done.
    apply Hinv; [|done].
    apply elem_of_union in Hin as [Hin%elem_of_singleton|Hin]; done.
Qed.

Lemma grown_reachable (g : Graph) : grown g → reachable g.
Proof.
  induction 1 as [|g id g' _ IH Hop|s t g e g' _ IH Hop].
  - apply reachable_new.
  - apply (reachable_step g); [done|]. by apply (step_addNode g id).
  - apply (reachable_step g); [done|]. by apply (step_addEdge s t g e).
Qed.

Lemma grown_one_edge : grown (after one_edge Graph_new).
Proof.
  apply (grown_addEdge 0 1 (after (addNode ;; addNode) Graph_new) 0).
  { apply (grown_addNode (after addNode Graph_new) 1).
    { apply (grown_addNode Graph_new 0); [apply grown_new|].
      vm_compute. reflexivity. }
    vm_compute. reflexivity. }
  vm_compute. reflexivity.
Qed.

(** X8.  As long as a graph has only had nodes and edges added, the degree
    counters of every live node equal the numbers of live edges that enter
    and leave it. *)
Theorem degree_invariant_while_growing (g : Graph) :
  grown g → degree_invariant g = true.
Proof.
  induction 1 as [|g id g' Hgrown IH Hop|s t g e g' Hgrown IH Hop].
  - reflexivity.
  - apply (degree_invariant_addNode id g g'); [by apply grown_reachable|done..].
  - apply (degree_invariant_addEdge s t e g g');
      [by apply grown_reachable|done..].
Qed.

Lemma degree_invariant_while_growing_witness :
  degree_invariant (after one_edge Graph_new) = true.
Proof. apply degree_invariant_while_growing, grown_one_edge. Defined.

(** X9.  On any reachable state where the degree counters agree with the
    edge store, a successful [addEdge] leaves them in agreement: the two
    counters it raises are those of the ends of the edge it adds. *)
Theorem addEdge_keeps_degree_invariant (s t : Z) (g : Graph) :
  reachable g →
  degree_invariant g = true →
  isValidNode s g = true →
  isValidNode t g = true →
  ∃ g', addEdge s t g = Some (edgeId g + 1, g') ∧
        getEdgeCount g' = getEdgeCount g + 1 ∧
        degree_invariant g' = true.
Proof.
  intros Hreach Hinv Hs Ht.
  pose proof (addEdge_eq s t g Hs Ht) as Hadd.
  eexists. split; [exact Hadd|]. split.
  - pose proof (reachable_ids_bounded g Hreach) as [_ Hbe _ _ _].
    unfold getEdgeCount. cbn [edges]. apply size_add_fresh.
    intros Hin%Hbe. lia.
  - by apply (degree_invariant_addEdge s t _ g _ Hreach Hinv Hadd).
Qed.

Lemma addEdge_keeps_degree_invariant_witness :
  let g := after (addNode ;; addNode ;; deleteNode 1) Graph_new in
  degree_invariant g = true ∧
  ∃ g', addEdge 0 0 g = Some (0, g') ∧ degree_invariant g' = true.
Proof.
  intros g. split; [vm_compute; reflexivity|].
  destruct (addEdge_keeps_degree_invariant 0 0 g) as (g' & Hadd & _ & Hinv).
  - apply (reachable_step (after (addNode ;; addNode) Graph_new)).
    + apply (reachable_step (after addNode Graph_new)).
      * apply (reachable_step Graph_new); [apply reachable_new|].
        apply (step_addNode _ 0). vm_compute. reflexivity.
      * apply (step_addNode _ 1). vm_compute. reflexivity.
    + apply (step_deleteNode 1 _ 1). vm_compute. reflexivity.
  - vm_compute. reflexivity.
  - vm_compute. reflexivity.
  - vm_compute. reflexivity.
  - exists g'. split; [exact Hadd|exact Hinv].
Defined.

(** ** Deleting *)

Lemma erase_find_length (x : Z) (l l' : list Z) :
  erase_find x l = Some l' → length l = S (length l').
Proof.
  revert l'. induction l as [|y l IH]; intros l' Herase; [done|].
  cbn in Herase. destruct (decide (y = x)).
  - by injection Herase as <-.
  - destruct (erase_find x l) as [l0|]; [|done].
    injection Herase as <-. cbn. by rewrite (IH l0).
Qed.

Lemma erase_find_sub (x y : Z) (l l' : list Z) :
  erase_find x l = Some l' → y ∈ l' → y ∈ l.
Proof.
  revert l'. induction l as [|z l IH]; intros l' Herase Hin; [done|].
  cbn in Herase. destruct (decide (z = x)).
  - injection Herase as <-. by right.
  - destruct (erase_find x l) as [l0|]; [|done].
    injection Herase as <-.
    apply elem_of_cons in Hin as [->|Hin]; [by left|right]. by apply (IH l0).
Qed.

Lemma size_remove_live (x : Z) (s : gset Z) :
  x ∈ s → Z.of_nat (size (s ∖ {[x]})) = Z.of_nat (size s) - 1.
Proof.
  intros Hx.
  assert (Hsub : ({[x]} : gset Z) ⊆ s) by (by apply singleton_subseteq_l).
  rewrite size_difference by done.
  apply subseteq_size in Hsub. rewrite size_singleton in Hsub |- *. lia.
Qed.

(** X10.  In a well-formed store [deleteEdge] of a live edge returns its
    id; the edge is no longer valid, the edge count goes down by one, the
    other edge records and the live node set are as before, the bucket of
    its endpoints loses one entry and keeps every other id, every other
    bucket is as before, and the store is still well formed. *)
Theorem deleteEdge_removes_one (e : Z) (ed : Edge) (g : Graph) :
  well_formed g →
  edgeMap g !! e = Some ed →
  ∃ g' l l', deleteEdge e g = Some (e, g') ∧
    isValidEdge e g' = false ∧
    getEdgeCount g' = getEdgeCount g - 1 ∧
    (∀ x, x ≠ e → edgeMap g' !! x = edgeMap g !! x) ∧
    nodes g' = nodes g ∧
    bucket (source ed) (target ed) g = Some l ∧
    bucket (source ed) (target ed) g' = Some l' ∧
    length l = S (length l') ∧
    (∀ x, x ≠ e → x ∈ l ↔ x ∈ l') ∧
    (∀ a b, ¬ (a = source ed ∧ b = target ed) →
       bucket a b g' = bucket a b g) ∧
    well_formed g'.
Proof.
  intros Hwf Hed.
  destruct (wf_indexed g Hwf e ed Hed) as (l & Hl & Hin).
  destruct (erase_find_is_Some e l Hin) as [l' Herase].
  pose proof (deleteEdge_eq e ed l l' g Hed Hl Herase) as Hdel.
  match type of Hdel with _ = Some (_, ?state) => set (g' := state) in * end.
  pose proof (deleteEdge_bucket e ed l l') as Hbucket.
  specialize (λ a b, Hbucket a b g g' e Hed Hl Herase Hdel).
  exists g', l, l'. split; [done|].
  split; [|split; [|split; [|split; [done|split; [done|split;
    [|split; [|split; [|split]]]]]]]].
  - apply bool_decide_eq_false_2. cbn. rewrite lookup_delete_eq.
    by intros [? ?].
  - unfold getEdgeCount. cbn [edges g']. apply size_remove_live.
    rewrite <- (wf_edges g Hwf). by apply elem_of_dom.
  - intros x Hx. cbn. by rewrite lookup_delete_ne.
  - rewrite Hbucket. by rewrite decide_True.
  - by apply (erase_find_length e).
  - intros x Hx. split.
    + by apply (erase_find_keeps e).
    + by apply (erase_find_sub e).
  - intros a b Hab. rewrite Hbucket. by rewrite decide_False.
  - by apply (well_formed_deleteEdge e g g' e).
Qed.

Lemma deleteEdge_removes_one_witness :
  let g := after one_edge Graph_new in
  ∃ g', deleteEdge 0 g = Some (0, g') ∧
        getEdgeCount g' = getEdgeCount g - 1 ∧ well_formed g'.
Proof.
  intros g.
  destruct (deleteEdge_removes_one 0 (mkEdge 0 1) g)
    as (g' & l & l' & Hdel & _ & Hcount & _ & _ & _ & _ & _ & _ & _ & Hwf).
  - apply reachable_well_formed, reachable_one_edge.
  - vm_compute. reflexivity.
  - exists g'. split; [exact Hdel|]. split; [exact Hcount|exact Hwf].
Defined.

(** X11.  [deleteEdge] of an id that is not a valid edge returns the
    failure value -1 and leaves the whole object, version included, as it
    was. *)
Theorem deleteEdge_refuses_dead_id (e : Z) (g : Graph) :
  isValidEdge e g = false →
  deleteEdge e g = Some (-1, g).
Proof. intros Hdead. unfold deleteEdge. steps. by rewrite Hdead. Qed.

Lemma deleteEdge_refuses_dead_id_witness :
  deleteEdge 7 (after one_edge Graph_new)
  = Some (-1, after one_edge Graph_new).
Proof. apply deleteEdge_refuses_dead_id. vm_compute. reflexivity. Defined.

(** X12.  [deleteNode] of an id that is not a valid node returns the
    failure value -1 and leaves the whole object, version included, as it
    was. *)
Theorem deleteNode_refuses_dead_id (n : Z) (g : Graph) :
  isValidNode n g = false →
  deleteNode n g = Some (-1, g).
Proof. intros Hdead. unfold deleteNode. steps. by rewrite Hdead. Qed.

Lemma deleteNode_refuses_dead_id_witness :
  deleteNode 7 (after one_edge Graph_new)
  = Some (-1, after one_edge Graph_new).
Proof. apply deleteNode_refuses_dead_id. vm_compute. reflexivity. Defined.

(** X13.  In a well-formed store a live edge can be deleted once: the
    first [deleteEdge] returns its id, a second one on the same id returns
    -1 and changes nothing. *)
Theorem deleteEdge_twice (e : Z) (g : Graph) :
  well_formed g →
  isValidEdge e g = true →
  ∃ g', deleteEdge e g = Some (e, g') ∧
        version g' = version g + 1 ∧
        deleteEdge e g' = Some (-1, g').
Proof.
  intros Hwf [ed Hed]%isValidEdge_true.
  destruct (wf_indexed g Hwf e ed Hed) as (l & Hl & Hin).
  destruct (erase_find_is_Some e l Hin) as [l' Herase].
  eexists. split; [by apply (deleteEdge_eq e ed l l')|]. split; [done|].
  apply deleteEdge_invalid. apply bool_decide_eq_false_2. cbn.
  rewrite lookup_delete_eq. by intros [? ?].
Qed.

Lemma deleteEdge_twice_witness :
  ∃ g', deleteEdge 0 (after one_edge Graph_new) = Some (0, g') ∧
        deleteEdge 0 g' = Some (-1, g').
Proof.
  destruct (deleteEdge_twice 0 (after one_edge Graph_new))
    as (g' & Hfirst & _ & Hsecond).
  - apply reachable_well_formed, reachable_one_edge.
  - vm_compute. reflexivity.
  - exists g'. split; [exact Hfirst|exact Hsecond].
Defined.

(** X14.  In a well-formed store [deleteNode] of a live node takes it out
    of the live set and the node count down by one, leaves the record of
    every other node (degree counters, component, adjacency) as it was,
    raises the version by one, keeps the store well formed, and a second
    [deleteNode] of the same id returns -1 and changes nothing. *)
Theorem deleteNode_leaves_other_nodes (n : Z) (g : Graph) :
  well_formed g →
  isValidNode n g = true →
  ∃ g', deleteNode n g = Some (n, g') ∧
    nodes g' = nodes g ∖ {[n]} ∧
    getNodeCount g' = getNodeCount g - 1 ∧
    (∀ m, m ≠ n → nodeMap g' !! m = nodeMap g !! m) ∧
    version g' = version g + 1 ∧
    nodeId g' = nodeId g ∧ edgeId g' = edgeId g ∧
    well_formed g' ∧
    deleteNode n g' = Some (-1, g').
Proof.
  intros Hwf Hvalid.
  pose proof (well_formed_recorded g Hwf) as Hrecorded.
  pose proof (deleteNode_eq n g Hrecorded Hvalid) as Hdel. cbn zeta in Hdel.
  match type of Hdel with _ = Some (_, ?state) => set (g' := state) in * end.
  exists g'. split; [done|]. split; [done|].
  split; [|split; [|split; [done|split; [done|split; [done|split]]]]].
  - unfold getNodeCount. cbn [nodes g']. apply size_remove_live.
    rewrite <- (wf_nodes g Hwf). by apply elem_of_dom, isValidNode_true.
  - intros m Hm. cbn. by rewrite lookup_delete_ne.
  - by apply (well_formed_deleteNode n g g' n).
  - apply deleteNode_invalid, bool_decide_eq_false_2. cbn.
    rewrite lookup_delete_eq. by intros [? ?].
Qed.

Lemma deleteNode_leaves_other_nodes_witness :
  let g := after one_edge Graph_new in
  ∃ g', deleteNode 1 g = Some (1, g') ∧
        getNodeCount g' = getNodeCount g - 1 ∧
        nodeMap g' !! 0 = nodeMap g !! 0.
Proof.
  intros g.
  destruct (deleteNode_leaves_other_nodes 1 g)
    as (g' & Hdel & _ & Hcount & Hother & _).
  - apply reachable_well_formed, reachable_one_edge.
  - vm_compute. reflexivity.
  - exists g'. split; [exact Hdel|]. split; [exact Hcount|].
    apply Hother. discriminate.
Defined.

(** ** Clearing the edges *)

Lemma lookup_foldl_subscript_update (f : Node → Node) (ns : list Z) (n : Z) :
  (∀ nd, f (f nd) = f nd) →
  ∀ m : gmap Z Node,
  foldl (λ m k, subscript_update Node_default k f m) m ns !! n
  = if decide (n ∈ ns) then Some (f (default Node_default (m !! n)))
    else m !! n.
Proof.
  intros Hidem. induction ns as [|k ns IH]; intros m; cbn [foldl].
  - rewrite decide_False; [done|]. by intros ?%elem_of_nil.
  - rewrite IH, lookup_subscript_update.
    destruct (decide (n ∈ ns)) as [Hin|Hout].
    + rewrite (decide_True (P := n ∈ k :: ns)) by (by right).
      destruct (decide (k = n)) as [->|]; [|done]. cbn.
      by rewrite Hidem.
    + destruct (decide (k = n)) as [->|Hne].
      * by rewrite (decide_True (P := n ∈ n :: ns)) by (by left).
      * rewrite (decide_False (P := n ∈ k :: ns)); [done|].
        intros [?|?]%elem_of_cons; congruence.
Qed.

Lemma hasEdge_no_bucket (s t : Z) (g : Graph) :
  (∀ nd, nodeMap g !! s = Some nd → adjacent nd !! t = None) →
  eval (hasEdge s t) g = Some false.
Proof.
  intros Hnone. unfold eval, hasEdge, bind, nodeMap_at, subscript.
  destruct (nodeMap g !! s) as [nd|] eqn:Hs; cbn.
  - rewrite (Hnone nd) by done. by rewrite bool_decide_eq_false_2 by (by intros [? ?]).
  - by rewrite bool_decide_eq_false_2 by (by intros [? ?]).
Qed.

(** X15.  In a well-formed store [clearEdges()] leaves no edge: the edge
    count is 0, no id is a valid edge, every adjacency bucket is gone, so
    [hasEdge] is false for every pair of ids; the live node set and both
    degree counters of every node are as before, and the version goes up
    by one. *)
Theorem clearEdges_removes_every_edge (g : Graph) :
  well_formed g →
  ∃ g', clearEdges g = Some (tt, g') ∧
    getEdgeCount g' = 0 ∧
    (∀ e, isValidEdge e g' = false) ∧
    (∀ s t, bucket s t g' = None) ∧
    (∀ s t, eval (hasEdge s t) g' = Some false) ∧
    nodes g' = nodes g ∧
    (∀ n, isValidNode n g' = isValidNode n g) ∧
    (∀ n, inDegree <$> nodeMap g' !! n = inDegree <$> nodeMap g !! n ∧
          outDegree <$> nodeMap g' !! n = outDegree <$> nodeMap g !! n) ∧
    version g' = version g + 1.
Proof.
  intros Hwf. eexists. split; [apply clearEdges_eq|].
  assert (Hlookup : ∀ n,
    foldl (λ m k, subscript_update Node_default k (with_adjacent (λ _, ∅)) m)
          (nodeMap g) (ordered (nodes g)) !! n
    = with_adjacent (λ _, ∅) <$> nodeMap g !! n).
  { intros n. rewrite lookup_foldl_subscript_update by done.
    destruct (decide (n ∈ ordered (nodes g))) as [Hin|Hout].
    - apply elem_of_ordered in Hin. rewrite <- (wf_nodes g Hwf) in Hin.
      apply elem_of_dom in Hin as [nd ->]. done.
    - rewrite elem_of_ordered, <- (wf_nodes g Hwf) in Hout.
      apply not_elem_of_dom in Hout. by rewrite Hout. }
  assert (Hempty : ∀ s t, bucket s t
    (mkGraph (version g + 1) (nodeId g) (edgeId g) (nodes g)
       (foldl (λ m k, subscript_update Node_default k (with_adjacent (λ _, ∅)) m)
              (nodeMap g) (ordered (nodes g))) ∅ ∅) = None).
  { intros s t. unfold bucket. cbn [nodeMap]. rewrite Hlookup.
    by destruct (nodeMap g !! s). }
  split; [done|]. split; [|split; [done|split; [|split; [done|split; [|split]]]]].
  - intros e. by apply bool_decide_eq_false_2; intros [? ?].
  - intros s t. apply hasEdge_no_bucket. intros nd Hnd.
    specialize (Hempty s t). unfold bucket in Hempty. by rewrite Hnd in Hempty.
  - intros n. unfold isValidNode. cbn [nodeMap]. rewrite Hlookup.
    apply bool_decide_ext. by rewrite fmap_is_Some.
  - intros n. cbn [nodeMap]. rewrite Hlookup.
    by destruct (nodeMap g !! n).
  - done.
Qed.

Lemma clearEdges_removes_every_edge_witness :
  ∃ g', clearEdges (after one_edge Graph_new) = Some (tt, g') ∧
        getEdgeCount g' = 0 ∧ eval (hasEdge 0 1) g' = Some false.
Proof.
  destruct (clearEdges_removes_every_edge (after one_edge Graph_new))
    as (g' & Hclear & Hcount & _ & _ & Hhas & _).
  - apply reachable_well_formed, reachable_one_edge.
  - exists g'. split; [exact Hclear|]. split; [exact Hcount|apply Hhas].
Defined.

(** ** Deleting the first node *)

Lemma ordered_first_least (s : gset Z) (n : Z) (rest : list Z) :
  ordered s = n :: rest → n ∈ s ∧ ∀ m, m ∈ s → n ≤ m.
Proof.
  intros Hord. split.
  - apply elem_of_ordered. rewrite Hord. by left.
  - intros m Hm%elem_of_ordered.
    pose proof (StronglySorted_merge_sort Z.le (elements s)) as Hsorted.
    fold (ordered s) in Hsorted. rewrite Hord in Hsorted, Hm.
    apply StronglySorted_inv in Hsorted as [_ Hall].
    apply elem_of_cons in Hm as [->|Hm]; [lia|].
    by apply (proj1 (Forall_forall _ _) Hall).
Qed.

Lemma ordered_empty (s : gset Z) : ordered s = [] ↔ s = ∅.
Proof.
  split.
  - intros Hord. apply set_eq. intros x.
    rewrite <- elem_of_ordered, Hord. set_solver.
  - intros ->. reflexivity.
Qed.

(** X16.  [deleteNode()] without an argument deletes the least live node id
    of a well-formed store that has a node: it returns that id and the node
    count goes down by one.  On a graph without nodes it dereferences the
    end of the empty set, which is undefined. *)
Theorem deleteNode_first_deletes_least (g : Graph) :
  well_formed g →
  (nodes g = ∅ → deleteNode_first g = None) ∧
  (nodes g ≠ ∅ →
   ∃ n g', deleteNode_first g = Some (n, g') ∧
     n ∈ nodes g ∧ (∀ m, m ∈ nodes g → n ≤ m) ∧
     nodes g' = nodes g ∖ {[n]} ∧
     getNodeCount g' = getNodeCount g - 1).
Proof.
  intros Hwf. unfold deleteNode_first. split.
  - intros Hnone. steps. by rewrite Hnone.
  - intros Hsome. steps.
    destruct (ordered (nodes g)) as [|n rest] eqn:Hord.
    { by apply ordered_empty in Hord. }
    destruct (ordered_first_least _ _ _ Hord) as [Hin Hleast].
    assert (Hvalid : isValidNode n g = true).
    { apply isValidNode_true, elem_of_dom. by rewrite (wf_nodes g Hwf). }
    exists n. eexists. split.
    { apply deleteNode_eq; [by apply well_formed_recorded|done]. }
    cbn [nodes]. split; [done|]. split; [done|]. split; [done|].
    unfold getNodeCount. cbn [nodes]. by apply size_remove_live.
Qed.

Lemma deleteNode_first_deletes_least_witness :
  deleteNode_first Graph_new = None ∧
  ∃ g', deleteNode_first (after one_edge Graph_new) = Some (0, g').
Proof.
  split.
  - destruct (deleteNode_first_deletes_least Graph_new well_formed_new)
      as [Hnone _]. by apply Hnone.
  - destruct (deleteNode_first_deletes_least (after one_edge Graph_new))
      as [_ Hsome].
    + apply reachable_well_formed, reachable_one_edge.
    + destruct Hsome as (n & g' & Hdel & _); [discriminate|].
      exists g'. rewrite Hdel. do 2 f_equal.
      assert (Hrun : deleteNode_first (after one_edge Graph_new)
                = Some (0, after (one_edge ;; deleteNode_first) Graph_new))
        by (vm_compute; reflexivity).
      rewrite Hrun in Hdel. by injection Hdel as <- _.
Defined.

(** ** Getters that create records *)

(** X17.  [hasEdge(s, t)] on an [s] that is not a valid node answers false
    and leaves a new node record under [s]: [s] is a valid node afterwards
    although the live node set and the node count have not changed, and an
    [addEdge(s, t)] to a valid [t], refused before, now succeeds and
    stores an edge whose source is not in the live node set. *)
Theorem hasEdge_creates_node_record (s t : Z) (g : Graph) :
  isValidNode s g = false →
  isValidNode t g = true →
  s ∉ nodes g →
  addEdge s t g = Some (-1, g) ∧
  ∃ g', hasEdge s t g = Some (false, g') ∧
    isValidNode s g' = true ∧
    nodes g' = nodes g ∧
    getNodeCount g' = getNodeCount g ∧
    nodeMap g' !! s = Some Node_default ∧
    (∀ m, m ≠ s → nodeMap g' !! m = nodeMap g !! m) ∧
    edges g' = edges g ∧ edgeMap g' = edgeMap g ∧
    version g' = version g ∧
    ∃ g'', addEdge s t g' = Some (edgeId g + 1, g'') ∧
      edgeMap g'' !! (edgeId g + 1) = Some (mkEdge s t) ∧
      s ∉ nodes g''.
Proof.
  intros Hs Ht Hout. split; [apply addEdge_dead_endpoint; by left|].
  assert (Hnone : nodeMap g !! s = None).
  { apply eq_None_not_Some. intros Hsome. apply isValidNode_true in Hsome.
    congruence. }
  eexists. split.
  { unfold hasEdge, bind, nodeMap_at, subscript. rewrite Hnone.
    cbn [adjacent Node_default]. rewrite lookup_empty.
    rewrite bool_decide_eq_false_2 by (by intros [? ?]). reflexivity. }
  cbn [nodes nodeMap edges edgeMap version with_nodeMap].
  assert (Hs' : isValidNode s (with_nodeMap (λ _, <[s:=Node_default]> (nodeMap g)) g) = true).
  { apply isValidNode_true. cbn. rewrite lookup_insert_eq. eauto. }
  assert (Ht' : isValidNode t (with_nodeMap (λ _, <[s:=Node_default]> (nodeMap g)) g) = true).
  { apply isValidNode_true. apply isValidNode_true in Ht. cbn.
    rewrite lookup_insert_ne; [done|]. intros ->.
    rewrite Hnone in Ht. by destruct Ht. }
  split; [done|]. split; [done|]. split; [done|].
  split; [apply lookup_insert_eq|].
  split; [intros m Hm; by rewrite lookup_insert_ne|].
  split; [done|]. split; [done|]. split; [done|].
  eexists. split; [rewrite addEdge_eq by done; reflexivity|]. cbn.
  split; [apply lookup_insert_eq|done].
Qed.

Lemma hasEdge_creates_node_record_witness :
  let g := after one_edge Graph_new in
  addEdge 5 1 g = Some (-1, g) ∧
  ∃ g' g'', hasEdge 5 1 g = Some (false, g') ∧
            getNodeCount g' = getNodeCount g ∧
            addEdge 5 1 g' = Some (1, g'').
Proof.
  intros g.
  destruct (hasEdge_creates_node_record 5 1 g)
    as (Hrefused & g' & Hhas & _ & _ & Hcount & _ & _ & _ & _ & _
        & g'' & Hadd & _).
  - vm_compute. reflexivity.
  - vm_compute. reflexivity.
  - vm_compute. discriminate.
  - split; [exact Hrefused|]. exists g', g''.
    split; [exact Hhas|]. split; [exact Hcount|exact Hadd].
Defined.

(** X18.  [getEdge(e)] on an id that is not a valid edge creates a record
    for it and returns that record: afterwards [e] is a valid edge although
    it is not in the live edge set and the edge count has not changed; the
    other edge records, the node store and the version are as before.  On
    a valid edge it returns the stored record and changes nothing. *)
Theorem getEdge_creates_edge_record (e : Z) (g : Graph) :
  (∀ ed, edgeMap g !! e = Some ed → getEdge e g = Some (ed, g)) ∧
  (isValidEdge e g = false →
   ∃ ed g', getEdge e g = Some (ed, g') ∧
     isValidEdge e g' = true ∧
     edgeMap g' !! e = Some ed ∧
     (∀ x, x ≠ e → edgeMap g' !! x = edgeMap g !! x) ∧
     edges g' = edges g ∧
     getEdgeCount g' = getEdgeCount g ∧
     nodes g' = nodes g ∧ nodeMap g' = nodeMap g ∧
     version g' = version g).
Proof.
  split; [intros ed Hed; by apply edgeMap_at_live|].
  intros Hdead.
  assert (Hnone : edgeMap g !! e = None).
  { apply eq_None_not_Some. intros Hsome%isValidEdge_true. congruence. }
  eexists _, _. split.
  { unfold getEdge, edgeMap_at, subscript. rewrite Hnone. reflexivity. }
  cbn. split; [|split; [apply lookup_insert_eq|split]].
  - apply isValidEdge_true. cbn. rewrite lookup_insert_eq. eauto.
  - intros x Hx. by rewrite lookup_insert_ne.
  - done.
Qed.

Lemma getEdge_creates_edge_record_witness :
  let g := after one_edge Graph_new in
  getEdge 0 g = Some (mkEdge 0 1, g) ∧
  ∃ ed g', getEdge 7 g = Some (ed, g') ∧
           isValidEdge 7 g' = true ∧ getEdgeCount g' = getEdgeCount g.
Proof.
  intros g. destruct (getEdge_creates_edge_record 0 g) as [Hlive _].
  destruct (getEdge_creates_edge_record 7 g) as [_ Hdead].
  split; [apply Hlive; vm_compute; reflexivity|].
  destruct Hdead as (ed & g' & Hget & Hvalid & _ & _ & _ & Hcount & _);
    [vm_compute; reflexivity|].
  exists ed, g'. split; [exact Hget|]. split; [exact Hvalid|exact Hcount].
Defined.

(** X19.  In a well-formed store [hasEdge] and [getEdges] never miss a
    live edge: for a live edge [e] from [s] to [t], [hasEdge(s, t)] is true
    and [getEdges(s, t)] returns a list that contains [e], and neither
    call changes the object. *)
Theorem hasEdge_finds_live_edge (e s t : Z) (g : Graph) :
  well_formed g →
  edgeMap g !! e = Some (mkEdge s t) →
  hasEdge s t g = Some (true, g) ∧
  ∃ l, getEdges s t g = Some (l, g) ∧ e ∈ l.
Proof.
  intros Hwf Hed.
  destruct (wf_indexed g Hwf e _ Hed) as (l & Hl & Hin). cbn in Hl.
  split; [by apply (hasEdge_bucket s t l)|].
  exists l. split; [by apply getEdges_live|done].
Qed.

Lemma hasEdge_finds_live_edge_witness :
  let g := after one_edge Graph_new in
  hasEdge 0 1 g = Some (true, g) ∧ ∃ l, getEdges 0 1 g = Some (l, g) ∧ 0 ∈ l.
Proof.
  intros g. apply (hasEdge_finds_live_edge 0 0 1 g).
  - apply reachable_well_formed, reachable_one_edge.
  - vm_compute. reflexivity.
Defined.

(** [isBidirectional] on valid nodes. *)
Lemma isBidirectional_symmetric_aux (a b : Z) (g : Graph) :
  isValidNode a g = true →
  isValidNode b g = true →
  ∃ r : bool,
    isBidirectional a b g = Some (r, g) ∧
    isBidirectional b a g = Some (r, g) ∧
    (r = true ↔ is_Some (bucket a b g) ∧ is_Some (bucket b a g)).
Proof.
  intros [na Ha]%isValidNode_true [nb Hb]%isValidNode_true.
  exists (bool_decide (is_Some (adjacent na !! b))
          && bool_decide (is_Some (adjacent nb !! a))).
  unfold isBidirectional.
  rewrite (bind_Some _ _ _ _ _ (hasEdge_live a b na g Ha)).
  rewrite (bind_Some _ _ _ _ _ (hasEdge_live b a nb g Hb)).
  unfold bucket. rewrite Ha, Hb. cbn [mbind option_bind].
  destruct (bool_decide (is_Some (adjacent na !! b))) eqn:Eab,
           (bool_decide (is_Some (adjacent nb !! a))) eqn:Eba;
    rewrite ?(hasEdge_live a b na g Ha), ?(hasEdge_live b a nb g Hb),
            ?Eab, ?Eba;
    cbn [andb]; unfold ret;
    (split; [done|]); (split; [done|]);
    try apply bool_decide_eq_true in Eab;
    try apply bool_decide_eq_true in Eba;
    try apply bool_decide_eq_false in Eab;
    try apply bool_decide_eq_false in Eba;
    split; try done; intros [? ?]; done.
Qed.

(** X20.  For two valid nodes [isBidirectional(a, b)] changes nothing, is
    true exactly when [a] has a bucket for [b] and [b] has one for [a],
    and gives the same answer with its arguments swapped. *)
Theorem isBidirectional_symmetric (a b : Z) (g : Graph) :
  isValidNode a g = true →
  isValidNode b g = true →
  ∃ r : bool,
    isBidirectional a b g = Some (r, g) ∧
    isBidirectional b a g = Some (r, g) ∧
    (r = true ↔ is_Some (bucket a b g) ∧ is_Some (bucket b a g)).
Proof.
  intros Ha Hb.
  destruct (isBidirectional_symmetric_aux a b g Ha Hb) as (r & Hab & Hba & Hr).
  by exists r.
Qed.

Lemma isBidirectional_symmetric_witness :
  let g := after (one_edge ;; addEdge 1 0) Graph_new in
  ∃ r : bool, isBidirectional 0 1 g = Some (r, g) ∧
              isBidirectional 1 0 g = Some (r, g).
Proof.
  intros g.
  destruct (isBidirectional_symmetric 0 1 g) as (r & H01 & H10 & _);
    [vm_compute; reflexivity | vm_compute; reflexivity |].
  exists r. split; [exact H01|exact H10].
Defined.

(** X21.  In a well-formed store [isBidirectional(e)] on a live edge [e]
    changes nothing and is [isBidirectional] of its endpoints; for a
    self-loop it is true. *)
Theorem isBidirectional_edge_live (e : Z) (ed : Edge) (g : Graph) :
  well_formed g →
  edgeMap g !! e = Some ed →
  isBidirectional_edge e g = isBidirectional (source ed) (target ed) g ∧
  (∃ r, isBidirectional_edge e g = Some (r, g)) ∧
  (source ed = target ed → isBidirectional_edge e g = Some (true, g)).
Proof.
  intros Hwf Hed.
  assert (Hrun : isBidirectional_edge e g
                 = isBidirectional (source ed) (target ed) g).
  { unfold isBidirectional_edge.
    rewrite (bind_Some _ _ _ _ _ (edgeMap_at_live e ed g Hed)).
    by rewrite (bind_Some _ _ _ _ _ (edgeMap_at_live e ed g Hed)). }
  destruct (wf_endpoints g Hwf e ed Hed) as [Hs Ht].
  rewrite <- (wf_nodes g Hwf) in Hs, Ht.
  apply elem_of_dom, isValidNode_true in Hs, Ht.
  destruct (wf_indexed g Hwf e ed Hed) as (l & Hl & _).
  split; [done|]. rewrite Hrun. split.
  - destruct (isBidirectional_symmetric_aux (source ed) (target ed) g Hs Ht)
      as (r & Hr & _). by exists r.
  - intros Hloop. rewrite <- Hloop in Hl |- *.
    by apply (isBidirectional_buckets _ _ l l).
Qed.

Lemma isBidirectional_edge_live_witness :
  let g := after (addNode ;; addEdge 0 0) Graph_new in
  isBidirectional_edge 0 g = Some (true, g).
Proof.
  intros g.
  destruct (isBidirectional_edge_live 0 (mkEdge 0 0) g) as (_ & _ & Hloop).
  - apply reachable_well_formed.
    apply (reachable_step (after addNode Graph_new)).
    + apply (reachable_step Graph_new); [apply reachable_new|].
      apply (step_addNode _ 0). vm_compute. reflexivity.
    + apply (step_addEdge 0 0 _ 0). vm_compute. reflexivity.
  - vm_compute. reflexivity.
  - by apply Hloop.
Defined.

(** ** The adapter on dense edge ids *)

Lemma edge_loop_dense (g : Graph) (rounds : nat) :
  ∀ (i : Z) (b : BoostGraph),
  (∀ e, i ≤ e < getEdgeCount g → is_Some (edgeMap g !! e)) →
  Z.max 0 (getEdgeCount g - i) < Z.of_nat rounds →
  for_loop rounds (λ edge g, edge <? getEdgeCount g)
    (λ edge b,
       let! s := edgeMap_at edge in
       let! t := edgeMap_at edge in
       ret (add_edge (source s) (target t) b)) i b g
  = Some (foldl (λ b e,
            add_edge (source (default Edge_default (edgeMap g !! e)))
                     (target (default Edge_default (edgeMap g !! e))) b)
            b (seqZ i (getEdgeCount g - i)), g).
Proof.
  induction rounds as [|rounds IH]; intros i b Hdense Hrounds; [lia|].
  cbn [for_loop]. steps.
  destruct (Z.ltb_spec i (getEdgeCount g)) as [Hlt|Hge].
  2:{ rewrite seqZ_nil by lia. reflexivity. }
  destruct (Hdense i) as [ed Hed]; [lia|].
  steps. rewrite (bind_Some _ _ _ _ _ (edgeMap_at_live i ed g Hed)). steps.
  rewrite (bind_Some _ _ _ _ _ (edgeMap_at_live i ed g Hed)). steps.
  rewrite IH by (try lia; intros e He; apply Hdense; lia).
  rewrite (seqZ_cons i) by lia. cbn [foldl]. rewrite Hed.
  replace (Z.succ i) with (i + 1) by lia.
  replace (Z.pred (getEdgeCount g - i)) with (getEdgeCount g - (i + 1)) by lia.
  reflexivity.
Qed.

Lemma edge_list_foldl_add_edge (ends : Z → Z * Z) (l : list Z) :
  ∀ b : BoostGraph,
  edge_list (foldl (λ b e, add_edge (ends e).1 (ends e).2 b) b l)
  = edge_list b ++ (ends <$> l).
Proof.
  induction l as [|e l IH]; intros b; cbn [foldl fmap list_fmap].
  - by rewrite app_nil_r.
  - rewrite IH. cbn. rewrite <- app_assoc. by destruct (ends e).
Qed.

(** X22.  When every id in 0..getEdgeCount()-1 is a valid edge,
    [toBoost()] changes nothing in the object and returns an external graph
    whose edges are, in the order of the ids, one per id in that range,
    each connecting the indices equal to the source and target ids of the
    edge with that id. *)
Theorem toBoost_dense_edges (g : Graph) :
  (∀ e, 0 ≤ e < getEdgeCount g → isValidEdge e g = true) →
  ∃ b, toBoost g = Some (b, g) ∧
    edge_list b
    = (λ e, (source (default Edge_default (edgeMap g !! e)),
             target (default Edge_default (edgeMap g !! e))))
      <$> seqZ 0 (getEdgeCount g).
Proof.
  intros Hdense. eexists. split.
  - unfold toBoost. steps. cbn [for_loop]. steps.
    assert ((0 >? getNodeCount g) = false) as ->.
    { rewrite Z.gtb_ltb. apply Z.ltb_ge. unfold getNodeCount. lia. }
    steps. rewrite edge_loop_dense;
      [|intros e He; by apply isValidEdge_true, Hdense
       |unfold getEdgeCount; lia].
    rewrite Z.sub_0_r. reflexivity.
  - exact (edge_list_foldl_add_edge
      (λ e, (source (default Edge_default (edgeMap g !! e)),
             target (default Edge_default (edgeMap g !! e))))
      (seqZ 0 (getEdgeCount g)) BoostGraph_empty).
Qed.

Lemma toBoost_dense_edges_witness :
  ∃ b, toBoost (after (one_edge ;; addEdge 1 0) Graph_new)
       = Some (b, after (one_edge ;; addEdge 1 0) Graph_new) ∧
       edge_list b = [(0, 1); (1, 0)].
Proof.
  destruct (toBoost_dense_edges (after (one_edge ;; addEdge 1 0) Graph_new))
    as (b & Hrun & Hedges).
  - intros e He.
    assert (e = 0 ∨ e = 1) as [-> | ->]
      by (change (getEdgeCount _) with 2 in He; lia);
      vm_compute; reflexivity.
  - exists b. split; [exact Hrun|]. rewrite Hedges. vm_compute. reflexivity.
Defined.

(** ** Analytics *)

(** What two states share when only the edge map may differ. *)
Lemma edgeMap_at_frame (e : Z) (g : Graph) :
  ∃ ed g', edgeMap_at e g = Some (ed, g') ∧
    nodes g' = nodes g ∧ nodeMap g' = nodeMap g ∧ edges g' = edges g ∧
    version g' = version g ∧ nodeId g' = nodeId g ∧ edgeId g' = edgeId g.
Proof.
  unfold edgeMap_at, subscript.
  destruct (edgeMap g !! e); eexists _, _; (split; [reflexivity|done]).
Qed.

Lemma edge_loop_frame (rounds : nat) : ∀ (i : Z) (b : BoostGraph) (g : Graph),
  Z.max 0 (getEdgeCount g - i) < Z.of_nat rounds →
  ∃ b' g', for_loop rounds (λ edge g, edge <? getEdgeCount g)
             (λ edge b,
                let! s := edgeMap_at edge in
                let! t := edgeMap_at edge in
                ret (add_edge (source s) (target t) b)) i b g
           = Some (b', g') ∧
    nodes g' = nodes g ∧ nodeMap g' = nodeMap g ∧ edges g' = edges g ∧
    version g' = version g ∧ nodeId g' = nodeId g ∧ edgeId g' = edgeId g.
Proof.
  induction rounds as [|rounds IH]; intros i b g Hrounds; [lia|].
  cbn [for_loop]. steps.
  destruct (Z.ltb_spec i (getEdgeCount g)) as [Hlt|Hge].
  2:{ by eexists _, _. }
  destruct (edgeMap_at_frame i g)
    as (s & g1 & Hs & Hn1 & Hm1 & He1 & Hv1 & Hni1 & Hei1).
  destruct (edgeMap_at_frame i g1)
    as (t & g2 & Ht & Hn2 & Hm2 & He2 & Hv2 & Hni2 & Hei2).
  steps. rewrite (bind_Some _ _ _ _ _ Hs). steps.
  rewrite (bind_Some _ _ _ _ _ Ht). steps.
  destruct (IH (i + 1) (add_edge (source s) (target t) b) g2)
    as (b' & g' & Hloop & Hn & Hm & He & Hv & Hni & Hei).
  { unfold getEdgeCount in *. rewrite He2, He1. lia. }
  exists b', g'. split; [done|]. repeat split; congruence.
Qed.

Lemma toBoost_frame (g : Graph) :
  ∃ b g', toBoost g = Some (b, g') ∧
    nodes g' = nodes g ∧ nodeMap g' = nodeMap g ∧ edges g' = edges g ∧
    version g' = version g ∧ nodeId g' = nodeId g ∧ edgeId g' = edgeId g ∧
    (edges g = ∅ → b = BoostGraph_empty).
Proof.
  destruct (edge_loop_frame (S (size (edges g))) 0 BoostGraph_empty g)
    as (b & g' & Hloop & Hframe); [unfold getEdgeCount; lia|].
  assert (Hrun : toBoost g = Some (b, g')).
  { unfold toBoost. steps. cbn [for_loop]. steps.
    assert ((0 >? getNodeCount g) = false) as ->.
    { rewrite Z.gtb_ltb. apply Z.ltb_ge. unfold getNodeCount. lia. }
    steps. exact Hloop. }
  exists b, g'. split; [done|].
  destruct Hframe as (? & ? & ? & ? & ? & ?). repeat split; try done.
  intros Hnone. rewrite (toBoost_no_edges g Hnone) in Hrun.
  by injection Hrun as <- _.
Qed.

Lemma foreach_undefined (x : Z) (body : Z → M unit) (l : list Z) :
  x ∈ l → (∀ g, body x g = None) → ∀ g, foreach l body g = None.
Proof.
  intros Hin Hnone. induction l as [|y l IH]; intros g; [by apply elem_of_nil in Hin|].
  cbn [foreach]. unfold bind.
  apply elem_of_cons in Hin as [<-|Hin]; [by rewrite Hnone|].
  destruct (body y g) as [[[] g1]|]; [by apply IH|done].
Qed.

Lemma write_component_out_of_range `{Library} (c : list Z) (n : Z) (g : Graph) :
  Z.of_nat (length c) ≤ n → write_component c n g = None.
Proof.
  intros Hout. unfold write_component.
  destruct (Z.ltb_spec n 0) as [|_]; [lia|].
  unfold bind, lift_option. rewrite lookup_ge_None_2 by lia. done.
Qed.

Lemma first_element_vector_of {T : Type} (x : T) (g : Graph) :
  nodes g ≠ ∅ → first_element (vector_of x g) = Some x.
Proof.
  intros Hlive. unfold first_element, vector_of, getNodeCount.
  rewrite Nat2Z.id.
  destruct (size (nodes g)) eqn:Hsize; [|done].
  by apply size_empty_iff, leibniz_equiv in Hsize.
Qed.

(** X23.  When the library hands back a component vector of the length it
    was given, [setComponents()] on a graph with a live node id at or
    above the node count (a graph with a hole left by a deleted node) reads
    the vector out of its bounds, which is undefined; it has called the
    library and not released the mutex. *)
Theorem setComponents_hole `{Library} (n : Z) (g : Graph) :
  (∀ b c, length (run_components b c) = length c) →
  n ∈ nodes g →
  getNodeCount g ≤ n →
  ∃ b, setComponents g
       = ([Lock; Invoke connected_components b (Z.to_nat (getNodeCount g))],
          None).
Proof.
  intros Hlength Hlive Hhole.
  destruct (toBoost_frame g) as (b & g' & Hrun & Hnodes & _).
  exists b. unfold setComponents. rewrite Hrun.
  assert (Hcount : getNodeCount g' = getNodeCount g)
    by (unfold getNodeCount; by rewrite Hnodes).
  rewrite first_element_vector_of
    by (rewrite Hnodes; intros Hnone; rewrite Hnone in Hlive;
        by apply not_elem_of_empty in Hlive).
  unfold vector_of. rewrite Hcount, length_replicate.
  rewrite (foreach_undefined n); [done| |].
  - rewrite Hnodes. by apply elem_of_ordered.
  - intros g0. apply write_component_out_of_range.
    rewrite Hlength, length_replicate. unfold getNodeCount in *. lia.
Qed.

Lemma setComponents_hole_witness :
  let g := after (addNode ;; addNode ;; deleteNode 0) Graph_new in
  getNodeCount g = 1 ∧
  ∃ b, @setComponents Library_inert g
       = ([Lock; Invoke connected_components b 1], None).
Proof.
  intros g. split; [vm_compute; reflexivity|].
  destruct (@setComponents_hole Library_inert 1 g) as (b & Hrun).
  - reflexivity.
  - vm_compute. reflexivity.
  - vm_compute. discriminate.
  - exists b. exact Hrun.
Defined.

Lemma foreach_write_component `{Library} (c : list Z) (l : list Z) :
  (∀ x, x ∈ l → 0 ≤ x < Z.of_nat (length c)) →
  ∀ g, ∃ g', foreach l (write_component c) g = Some (tt, g') ∧
    nodes g' = nodes g ∧ edges g' = edges g ∧ edgeMap g' = edgeMap g ∧
    version g' = version g ∧
    ∀ n, nodeMap g' !! n
         = if decide (n ∈ l)
           then (λ v, with_component v (default Node_default (nodeMap g !! n)))
                <$> c !! Z.to_nat n
           else nodeMap g !! n.
Proof.
  induction l as [|x l IH]; intros Hrange g.
  { exists g. split; [done|]. by repeat split. }
  destruct (lookup_lt_is_Some_2 c (Z.to_nat x)) as [v Hv].
  { specialize (Hrange x (list_elem_of_here x l)). lia. }
  assert (Hstep : write_component c x g
            = Some (tt, with_nodeMap
                     (subscript_update Node_default x (with_component v)) g)).
  { unfold write_component.
    destruct (Z.ltb_spec x 0) as [Hneg|_].
    - specialize (Hrange x (list_elem_of_here x l)). lia.
    - unfold bind, lift_option. rewrite Hv. reflexivity. }
  destruct (IH (λ y Hy, Hrange y (list_elem_of_further y x l Hy))
               (with_nodeMap (subscript_update Node_default x (with_component v)) g))
    as (g' & Hrun & Hn & He & Hm & Hver & Hlookup).
  exists g'. split.
  { cbn [foreach]. by rewrite (bind_Some _ _ _ _ _ Hstep). }
  split; [done|]. split; [done|]. split; [done|]. split; [done|].
  intros n. rewrite Hlookup. cbn [nodeMap with_nodeMap].
  rewrite lookup_subscript_update.
  destruct (decide (n ∈ l)) as [Hin|Hout].
  - rewrite (decide_True (P := n ∈ x :: l)) by (by right).
    destruct (decide (x = n)) as [->|]; [|done]. cbn [default].
    by destruct (c !! Z.to_nat n).
  - destruct (decide (x = n)) as [->|Hne].
    + rewrite (decide_True (P := n ∈ n :: l)) by (by left).
      by rewrite Hv.
    + rewrite (decide_False (P := n ∈ x :: l)); [done|].
      intros [?|?]%elem_of_cons; congruence.
Qed.

(** X24.  When the library hands back a component vector of the length it
    was given, the graph has a node and every live node id is below the
    node count, [setComponents()] calls the library once, releases the
    mutex, and
    writes into the record of every live node the entry of the library's
    vector at the index equal to the node id; the degree counters and the
    adjacency of the node, the records of the other ids, the live sets and
    the version are as before. *)
Theorem setComponents_writes_components `{Library} (g : Graph) :
  (∀ b c, length (run_components b c) = length c) →
  nodes g ≠ ∅ →
  (∀ n, n ∈ nodes g → 0 ≤ n < getNodeCount g) →
  ∃ b g',
    setComponents g
    = ([Lock; Invoke connected_components b (Z.to_nat (getNodeCount g));
        Unlock], Some (tt, g')) ∧
    nodes g' = nodes g ∧ edges g' = edges g ∧ version g' = version g ∧
    (∀ n nd, n ∈ nodes g → nodeMap g !! n = Some nd →
       ∃ v, run_components b (replicate (Z.to_nat (getNodeCount g)) 0)
              !! Z.to_nat n = Some v ∧
            nodeMap g' !! n = Some (with_component v nd)) ∧
    (∀ n, n ∉ nodes g → nodeMap g' !! n = nodeMap g !! n).
Proof.
  intros Hlength Hsome Hdense.
  destruct (toBoost_frame g) as (b & g1 & Hrun & Hn1 & Hm1 & He1 & Hv1 & _).
  assert (Hcount : getNodeCount g1 = getNodeCount g)
    by (unfold getNodeCount; by rewrite Hn1).
  set (c := run_components b (replicate (Z.to_nat (getNodeCount g)) 0)).
  assert (Hc : Z.of_nat (length c) = getNodeCount g).
  { unfold c. rewrite Hlength, length_replicate. unfold getNodeCount. lia. }
  destruct (foreach_write_component c (ordered (nodes g1))) with (g := g1)
    as (g' & Hwrite & Hn & He & Hm & Hv & Hlookup).
  { intros x Hx%elem_of_ordered. rewrite Hn1 in Hx. rewrite Hc.
    by apply Hdense. }
  exists b, g'. split.
  { unfold setComponents. rewrite Hrun.
    rewrite first_element_vector_of by (by rewrite Hn1).
    unfold vector_of.
    rewrite Hcount, length_replicate. fold c. by rewrite Hwrite. }
  split; [congruence|]. split; [congruence|]. split; [congruence|]. split.
  - intros n nd Hin Hnd.
    destruct (lookup_lt_is_Some_2 c (Z.to_nat n)) as [v Hv'].
    { specialize (Hdense n Hin). lia. }
    exists v. split; [done|]. rewrite Hlookup.
    rewrite decide_True by (apply elem_of_ordered; by rewrite Hn1).
    by rewrite Hv', Hm1, Hnd.
  - intros n Hout. rewrite Hlookup.
    rewrite decide_False by (rewrite elem_of_ordered, Hn1; done).
    by rewrite Hm1.
Qed.

Lemma setComponents_writes_components_witness :
  let g := after one_edge Graph_new in
  ∃ b g', @setComponents Library_inert g
          = ([Lock; Invoke connected_components b 2; Unlock], Some (tt, g')).
Proof.
  intros g.
  destruct (@setComponents_writes_components Library_inert g)
    as (b & g' & Hrun & _).
  - reflexivity.
  - discriminate.
  - intros n Hn.
    assert (getNodeCount g = 2) as -> by (vm_compute; reflexivity).
    assert (n = 0 ∨ n = 1) as [-> | ->]; [|lia..].
    apply elem_of_elements in Hn. vm_compute in Hn.
    apply elem_of_cons in Hn as [->|Hn]; [lia|].
    apply elem_of_cons in Hn as [->|Hn]; [lia|].
    by apply elem_of_nil in Hn.
  - exists b, g'. exact Hrun.
Defined.

(** X25.  On a graph with at least one node [getBetweennessCentrality],
    [getShortestPath] and [getSpanningTree] each take the mutex, call the
    library once on the graph [toBoost()] builds, with a result vector of
    getNodeCount() entries, release the mutex and return what the library
    made of that vector; the node store, the live sets and the version are
    as before.  When the graph has no edge, the graph they hand to the
    library has no vertex although the vector has getNodeCount() entries. *)
Theorem analytics_on_nonempty_graph `{Library} (g : Graph) :
  getNodeCount g ≠ 0 →
  let n := Z.to_nat (getNodeCount g) in
  ∃ b g', toBoost g = Some (b, g') ∧
    nodes g' = nodes g ∧ nodeMap g' = nodeMap g ∧ edges g' = edges g ∧
    version g' = version g ∧
    getBetweennessCentrality g
    = ([Lock; Invoke brandes_betweenness_centrality b n; Unlock],
       Some (run_brandes b (replicate n double_zero), g')) ∧
    getShortestPath g
    = ([Lock; Invoke dijkstra_shortest_paths b n; Unlock],
       Some (run_dijkstra b getPreviousNode (replicate n 0), g')) ∧
    getSpanningTree g
    = ([Lock; Invoke prim_minimum_spanning_tree b n; Unlock],
       Some (run_prim b (replicate n 0), g')) ∧
    (edges g = ∅ → num_vertices b = 0%nat ∧ (0 < n)%nat).
Proof.
  intros Hnodes n.
  destruct (toBoost_frame g)
    as (b & g' & Hrun & Hn & Hm & He & Hv & _ & _ & Hnone).
  assert (Hcount : getNodeCount g' = getNodeCount g)
    by (unfold getNodeCount; by rewrite Hn).
  assert (Htest : (getNodeCount g =? 0) = false) by (by apply Z.eqb_neq).
  exists b, g'. split; [done|]. do 4 (split; [done|]).
  assert (Hsome : nodes g' ≠ ∅).
  { intros Hempty. apply Hnodes. unfold getNodeCount.
    by rewrite <- Hn, Hempty, size_empty. }
  unfold getBetweennessCentrality, getShortestPath, getSpanningTree.
  rewrite Hrun. cbn zeta. rewrite !first_element_vector_of by done.
  unfold vector_of. rewrite Hcount, Htest, !length_replicate.
  do 3 (split; [reflexivity|]).
  intros Hempty. rewrite (Hnone Hempty). split; [done|].
  unfold n, getNodeCount in *. lia.
Qed.

Lemma analytics_on_nonempty_graph_witness :
  let g := after addNode Graph_new in
  ∃ b g', @getSpanningTree Library_inert g
          = ([Lock; Invoke prim_minimum_spanning_tree b 1; Unlock],
             Some ([0], g')) ∧
          num_vertices b = 0%nat.
Proof.
  intros g.
  destruct (@analytics_on_nonempty_graph Library_inert g)
    as (b & g' & _ & _ & _ & _ & _ & _ & _ & Hprim & Hnone).
  - vm_compute. discriminate.
  - exists b, g'. split; [exact Hprim|]. by apply Hnone.
Defined.

(** ** Assignment from a well-formed graph *)

(** X26.  Assigning a well-formed graph [g] to a graph whose node counter
    is not behind that of [g] gives a well-formed graph that answers
    [isValidNode], [isValidEdge], the counts and every adjacency bucket as
    [g] does, and whose next [addNode()] id is not live. *)
Theorem assign_well_formed (this g : Graph) :
  well_formed g →
  nodeId g ≤ nodeId this →
  ∃ this', assign g this = Some (tt, this') ∧
    well_formed this' ∧
    (∀ n, isValidNode n this' = isValidNode n g) ∧
    (∀ e, isValidEdge e this' = isValidEdge e g) ∧
    getNodeCount this' = getNodeCount g ∧
    getEdgeCount this' = getEdgeCount g ∧
    (∀ s t, bucket s t this' = bucket s t g) ∧
    isValidNode (nodeId this' + 1) this' = false.
Proof.
  intros [Hn He Hfresh Hends Hidx] Hcounter.
  eexists. split; [apply assign_eq|].
  split; [|repeat split].
  - split; cbn [nodes nodeMap edges edgeMap nodeId]; try done.
    intros n Hin%Hfresh. lia.
  - apply bool_decide_eq_false_2. cbn. intros Hin%elem_of_dom.
    rewrite Hn in Hin. apply Hfresh in Hin. lia.
Qed.

Lemma assign_well_formed_witness :
  ∃ this', assign (after one_edge Graph_new) (after (addNodes 3) Graph_new)
           = Some (tt, this') ∧
           well_formed this' ∧ isValidNode (nodeId this' + 1) this' = false.
Proof.
  destruct (assign_well_formed (after (addNodes 3) Graph_new)
                               (after one_edge Graph_new))
    as (this' & Hassign & Hwf & _ & _ & _ & _ & _ & Hnext).
  - apply reachable_well_formed, reachable_one_edge.
  - vm_compute. discriminate.
  - exists this'. split; [exact Hassign|]. split; [exact Hwf|exact Hnext].
Defined.

(** ** [deleteEdge] and the end of a bucket *)

Lemma erase_find_None (x : Z) (l : list Z) : x ∉ l → erase_find x l = None.
Proof.
  induction l as [|y l IH]; intros Hout; [done|]. cbn.
  rewrite decide_False by (intros ->; apply Hout; by left).
  rewrite IH; [done|]. intros Hin. apply Hout. by right.
Qed.

(** X27.  On a reachable state [deleteEdge] always returns: for a valid
    edge its id is in the bucket of its endpoints, so the erased iterator
    is never the end of the list, and the call returns the id; for any
    other id it returns -1 and changes nothing. *)
Theorem deleteEdge_defined_on_reachable (e : Z) (g : Graph) :
  reachable g →
  ∃ r g', deleteEdge e g = Some (r, g') ∧
    reachable g' ∧
    ((isValidEdge e g = true ∧ r = e ∧ getEdgeCount g' = getEdgeCount g - 1) ∨
     (isValidEdge e g = false ∧ r = -1 ∧ g' = g)).
Proof.
  intros Hreach. pose proof (reachable_well_formed g Hreach) as Hwf.
  destruct (isValidEdge e g) eqn:Hvalid.
  - apply isValidEdge_true in Hvalid as [ed Hed].
    destruct (wf_indexed g Hwf e ed Hed) as (l & Hl & Hin).
    destruct (erase_find_is_Some e l Hin) as [l' Herase].
    pose proof (deleteEdge_eq e ed l l' g Hed Hl Herase) as Hdel.
    eexists _, _. split; [exact Hdel|]. split.
    + apply (reachable_step g); [done|]. by apply (step_deleteEdge e g e).
    + left. split; [done|]. split; [done|].
      unfold getEdgeCount. cbn [edges]. apply size_remove_live.
      rewrite <- (wf_edges g Hwf). by apply elem_of_dom.
  - exists (-1), g. split; [by apply deleteEdge_invalid|]. split; [done|].
    right. done.
Qed.

Lemma deleteEdge_defined_on_reachable_witness :
  ∃ r g', deleteEdge 0 (after one_edge Graph_new) = Some (r, g') ∧
          reachable g'.
Proof.
  destruct (deleteEdge_defined_on_reachable 0 (after one_edge Graph_new)
              reachable_one_edge) as (r & g' & Hdel & Hreach & _).
  exists r, g'. split; [exact Hdel|exact Hreach].
Defined.

(** X28.  [getEdge(e)] on an id that is not a valid edge makes it one, and
    a [deleteEdge(e)] after it is then not refused: it looks for [e] in the
    bucket of the endpoints of the record [getEdge] created, and unless
    that bucket happens to list [e] it erases the end of the list, which
    is undefined. *)
Theorem deleteEdge_after_getEdge_undefined (e : Z) (g : Graph) :
  isValidEdge e g = false →
  (∀ l, bucket (source Edge_default) (target Edge_default) g = Some l →
        e ∉ l) →
  deleteEdge e g = Some (-1, g) ∧
  (getEdge e ;; deleteEdge e) g = None.
Proof.
  intros Hdead Hout. split; [by apply deleteEdge_invalid|].
  assert (Hnone : edgeMap g !! e = None).
  { apply eq_None_not_Some. intros Hsome%isValidEdge_true. congruence. }
  unfold getEdge. unfold bind at 1. unfold edgeMap_at at 1, subscript.
  rewrite Hnone.
  set (g1 := with_edgeMap (λ _, <[e:=Edge_default]> (edgeMap g)) g).
  assert (Hed : edgeMap g1 !! e = Some Edge_default) by apply lookup_insert_eq.
  unfold deleteEdge. rewrite bind_gets.
  rewrite (proj2 (isValidEdge_true e g1)) by eauto. cbn [negb].
  rewrite (bind_Some _ _ _ _ _ (edgeMap_at_live e Edge_default g1 Hed)).
  unfold bind at 1, nodeMap_at, subscript. cbn [nodeMap g1 with_edgeMap].
  unfold bucket in Hout.
  destruct (nodeMap g !! source Edge_default) as [nd|] eqn:Hnd;
    cbn [mbind option_bind] in Hout; lazy beta iota zeta.
  - destruct (adjacent nd !! target Edge_default) as [l|] eqn:Hl;
      lazy beta iota zeta; unfold bind at 1, lift_option.
    + by rewrite (erase_find_None e l) by (by apply Hout).
    + reflexivity.
  - cbn [adjacent Node_default]. rewrite lookup_empty.
    lazy beta iota zeta. reflexivity.
Qed.

Lemma deleteEdge_after_getEdge_undefined_witness :
  deleteEdge 0 Graph_new = Some (-1, Graph_new) ∧
  (getEdge 0 ;; deleteEdge 0) Graph_new = None.
Proof.
  apply deleteEdge_after_getEdge_undefined.
  - reflexivity.
  - intros l Hl. vm_compute in Hl. discriminate.
Defined.

(** ** Edge insertion on ids outside the live node set *)

(** X29.  On every state a graph reaches through its mutators,
    [addEdge(s, t)] with a source or a target that is not in the live node
    set returns the failure value -1 and leaves the whole object (edge
    store, node store with its degree counters and adjacency index, both
    id counters and the version) as it was. *)
Theorem addEdge_refuses_non_live (s t : Z) (g : Graph) :
  reachable g →
  s ∉ nodes g ∨ t ∉ nodes g →
  addEdge s t g = Some (-1, g).
Proof.
  intros Hreach Hdead.
  pose proof (reachable_well_formed g Hreach) as Hwf.
  assert (Hguard : ∀ n, n ∉ nodes g → isValidNode n g = false).
  { intros n Hn. apply bool_decide_eq_false_2. intros Hin%elem_of_dom.
    by rewrite (wf_nodes g Hwf) in Hin. }
  apply addEdge_dead_endpoint.
  destruct Hdead as [Hs|Ht]; [left|right]; by apply Hguard.
Qed.

Lemma addEdge_refuses_non_live_witness :
  addEdge 5 1 (after one_edge Graph_new)
  = Some (-1, after one_edge Graph_new).
Proof.
  apply addEdge_refuses_non_live; [apply reachable_one_edge|].
  left. vm_compute. discriminate.
Defined.
